(** * Plot panel data pipeline (foxglove-studio, panels/Plot/index.tsx)

    A shallow embedding of the block accumulator, the streaming reducer,
    the path index, the view-window policy and the merge step of the Plot
    panel, together with the properties of its specification.

    JavaScript arrays and objects are mutable and compared by identity, so
    they live in an explicit store: one growable table per TypeScript type
    ([PlotDataItem[]], [PlotDataItem[][]], [PlotDataByPath]); a reference is
    an index into its table and allocation appends to the table.  Code that
    mutates the store is written in a state-and-failure monad.

    An object has own properties of two kinds: those that hold a range
    list, kept in the object's finite map, and those that hold a member of
    [Object.prototype] (a function such as [toString]), kept in the store's
    table of member entries.  [restore] indexes the previous state by the
    configured path texts as they are, so its read [previous[path]] also
    finds the members every object inherits from [Object.prototype], and it
    is the only code that makes a property of the second kind; the spreads
    copy both kinds.  The block accumulator and the streaming reducer index
    objects by the paths of the decoder and of the path index, which are
    paths that parsed as message paths: such a path is taken not to be the
    name of a member of [Object.prototype], and these reads and
    [Object.keys] of the block data go by the range-list properties.  The
    entries of an object are visited in the order of the map, not in
    insertion order; every loop over entries below handles each key once
    and independently.  [Object.freeze] on a per-block result freezes the
    object only, which the code never writes to, and is left out.
    JavaScript numbers are IEEE 754 doubles (the kernel's primitive floats);
    the [sec] and [nsec] of a time are integers. *)

From stdpp Require Import base option list gmap strings fin_maps.
From Stdlib Require Import ZArith Lia PrimFloat.
From Stdlib Require Uint63.

Set Default Proof Using "Type".
Open Scope Z_scope.
Open Scope nat_scope.

(** ** Time (the [Time] record of @foxglove/rostime) *)

Record Time := mkTime { sec : Z; nsec : Z }.

(** The JavaScript number that holds the integer [z], for [z] below 2^63 in
    absolute value (a time's fields are far below): the nearest double,
    which is [z] itself up to 2^53. *)
Definition numberOfZ (z : Z) : float :=
  if (z <? 0)%Z then PrimFloat.opp (PrimFloat.of_uint63 (Uint63.of_Z (- z)))
  else PrimFloat.of_uint63 (Uint63.of_Z z).

(** The double nearest to 1e-9. *)
Definition nanosecond : float := 0x1.12e0be826d695p-30%float.

(** [toSec({sec, nsec}) = sec + nsec * 1e-9], in double precision as
    JavaScript computes it: the product and the sum are each rounded. *)
Definition toSec (t : Time) : float :=
  PrimFloat.add (numberOfZ (sec t)) (PrimFloat.mul (numberOfZ (nsec t)) nanosecond).

(** [a < b] on JavaScript numbers: false when one of them is NaN. *)
Definition num_lt (a b : float) : bool := PrimFloat.ltb a b.

(** ** Chart views *)

Inductive ChartDefaultView :=
| following (width : float)
| fixed (minXValue maxXValue : float).

Inductive PlotXAxisVal := timestamp | index | custom | currentCustom.

#[global] Instance PlotXAxisVal_eq_dec : EqDecision PlotXAxisVal.
Proof. solve_decision. Defined.

(** ** References and the store *)

Abbreviation loc := nat.

(** What reading [obj[key]] gives when it is not [undefined]. *)
Inductive propertyValue :=
| rangeList (r : loc)                (* a [PlotDataItem[][]] *)
| prototypeMember (name : string).   (* [Object.prototype[name]], a function *)

(** The names of the function-valued members of JavaScript's
    [Object.prototype], which every object literal inherits.  Its accessor
    [__proto__] is not listed: reading it gives the prototype itself and
    assigning that to [__proto__] of another object literal changes nothing. *)
Definition objectPrototype : list string :=
  ["constructor"; "__defineGetter__"; "__defineSetter__"; "hasOwnProperty";
   "__lookupGetter__"; "__lookupSetter__"; "isPrototypeOf"; "propertyIsEnumerable";
   "toString"; "valueOf"; "toLocaleString"].

Section Store.
(** The element type of the innermost arrays, and the type of the keys of
    the per-block cache. *)
Context {Item : Type} {Block : Type} `{Countable Block}.

Record heap := mkHeap {
  item_arrays : list (list Item);          (* every PlotDataItem[] *)
  range_arrays : list (list loc);          (* every PlotDataItem[][] *)
  objects : list (gmap string loc);        (* every PlotDataByPath object *)
  block_memo : gmap Block loc;             (* cache of getMessagePathItemsForBlock *)
  members : gset (loc * string);           (* own properties holding a member of
                                              Object.prototype, by object and name *)
}.

Definition empty_heap : heap := mkHeap [] [] [] ∅ ∅.

(** Computations over the store; [None] is a run that does not return a
    value (an exception, or a loop that never ends). *)
Definition M (A : Type) : Type := heap → option (A * heap).

Definition mreturn {A} (a : A) : M A := λ h, Some (a, h).
Definition mthen {A B} (c : M A) (k : A → M B) : M B :=
  λ h, match c h with Some (a, h') => k a h' | None => None end.
Definition mfail {A} : M A := λ _, None.

(** [for (const x of l) { a = f(a, x) }] *)
Fixpoint forEach {A B} (f : A → B → M A) (a : A) (l : list B) : M A :=
  match l with
  | [] => mreturn a
  | x :: l' => mthen (f a x) (λ a', forEach f a' l')
  end.

(** Array and object literals and [slice()] allocate. *)
Definition newItems (l : list Item) : M loc :=
  λ h, Some (length (item_arrays h),
             mkHeap (item_arrays h ++ [l]) (range_arrays h) (objects h) (block_memo h) (members h)).
Definition newRanges (l : list loc) : M loc :=
  λ h, Some (length (range_arrays h),
             mkHeap (item_arrays h) (range_arrays h ++ [l]) (objects h) (block_memo h) (members h)).
Definition newObject (m : gmap string loc) : M loc :=
  λ h, Some (length (objects h),
             mkHeap (item_arrays h) (range_arrays h) (objects h ++ [m]) (block_memo h) (members h)).

Definition getItems (i : loc) : M (list Item) :=
  λ h, (λ l, (l, h)) <$> item_arrays h !! i.
Definition getRanges (r : loc) : M (list loc) :=
  λ h, (λ l, (l, h)) <$> range_arrays h !! r.
Definition getObject (o : loc) : M (gmap string loc) :=
  λ h, (λ m, (m, h)) <$> objects h !! o.

Definition setItems (i : loc) (l : list Item) : M unit :=
  λ h, match item_arrays h !! i with
       | Some _ => Some (tt, mkHeap (<[i:=l]> (item_arrays h)) (range_arrays h)
                                    (objects h) (block_memo h) (members h))
       | None => None
       end.
Definition setRanges (r : loc) (l : list loc) : M unit :=
  λ h, match range_arrays h !! r with
       | Some _ => Some (tt, mkHeap (item_arrays h) (<[r:=l]> (range_arrays h))
                                    (objects h) (block_memo h) (members h))
       | None => None
       end.
(** [obj[key] = v] *)
Definition setProperty (o : loc) (key : string) (v : loc) : M unit :=
  λ h, match objects h !! o with
       | Some m => Some (tt, mkHeap (item_arrays h) (range_arrays h)
                                    (<[o:=<[key:=v]> m]> (objects h)) (block_memo h) (members h))
       | None => None
       end.

(** [obj[key]] where inherited members count: an own range list, else the
    member of [Object.prototype] of that name (own or inherited, the value
    is the same), else [undefined]. *)
Definition getProperty (o : loc) (key : string) : M (option propertyValue) :=
  λ h, match objects h !! o with
       | Some m =>
           Some (match m !! key with
                 | Some r => Some (rangeList r)
                 | None => if decide (key ∈ objectPrototype)
                           then Some (prototypeMember key) else None
                 end, h)
       | None => None
       end.
(** [obj[key] = Object.prototype[key]]: an own property of the second kind,
    in place of a range list under that name. *)
Definition setMember (o : loc) (key : string) : M unit :=
  λ h, match objects h !! o with
       | Some m => Some (tt, mkHeap (item_arrays h) (range_arrays h)
                                    (<[o:=delete key m]> (objects h)) (block_memo h)
                                    (members h ∪ {[ (o, key) ]}))
       | None => None
       end.

(** The member entries of [o], as entries of [o']. *)
Definition membersOf (h : heap) (o o' : loc) : gset (loc * string) :=
  set_map (λ p : loc * string, (o', p.2))
          (filter (λ p : loc * string, p.1 = o) (members h)).
(** [{ ...o }]: a new object with the own properties of [o], of both kinds. *)
Definition spread (o : loc) : M loc :=
  λ h, match objects h !! o with
       | Some m => Some (length (objects h),
                         mkHeap (item_arrays h) (range_arrays h) (objects h ++ [m])
                                (block_memo h)
                                (members h ∪ membersOf h o (length (objects h))))
       | None => None
       end.

Definition getMemo (b : Block) : M (option loc) := λ h, Some (block_memo h !! b, h).
Definition setMemo (b : Block) (o : loc) : M unit :=
  λ h, Some (tt, mkHeap (item_arrays h) (range_arrays h) (objects h)
                        (<[b:=o]> (block_memo h)) (members h)).

(** What a reference of type [PlotDataItem[][]] denotes: the contents of
    its ranges. *)
Definition readRanges (h : heap) (r : loc) : option (list (list Item)) :=
  rs ← range_arrays h !! r; mapM (λ i, item_arrays h !! i) rs.

(** What [obj[path]] denotes. *)
Definition readPath (h : heap) (o : loc) (path : string) : option (list (list Item)) :=
  m ← objects h !! o; r ← m !! path; readRanges h r.
End Store.

Arguments heap : clear implicits.
Arguments heap _ _ {_ _}.
Arguments M : clear implicits.
Arguments M _ _ {_ _} _.

Notation "'let!' x ':=' c 'in' k" := (mthen c (λ x, k))
  (at level 10, x pattern, c at level 100, k at level 200).

(** Modelled from the spec: [filterMap] of @foxglove/den/collection is not
    among the sources; it applies [f] to every element, in order, and keeps
    the results that are defined. *)
Definition filterMap {A B} (collection : list A) (f : A → option B) : list B :=
  omap f collection.

(** ** Messages and samples *)

Module MessageEvent.
Record t (Message : Type) := mk {
  topic : string;
  receiveTime : Time;
  message : Message;
}.
Arguments mk {_} _ _ _.
Arguments topic {_} _.
Arguments receiveTime {_} _.
Arguments message {_} _.
End MessageEvent.

(** An element of [MessageDataItemsByPath]: a message with the data the path
    selects in it. *)
Module MessageAndData.
Record t (Message QueriedData : Type) := mk {
  queriedData : QueriedData;
  messageEvent : MessageEvent.t Message;
}.
Arguments mk {_ _} _ _.
Arguments queriedData {_ _} _.
Arguments messageEvent {_ _} _.
End MessageAndData.

Module PlotDataItem.
Record t (QueriedData : Type) := mk {
  queriedData : QueriedData;
  receiveTime : Time;
  headerStamp : option Time;
}.
Arguments mk {_} _ _ _.
Arguments queriedData {_} _.
Arguments receiveTime {_} _.
Arguments headerStamp {_} _.
End PlotDataItem.

(** ** A small instance

    Concrete collaborators, events and stores on which the properties below
    are exercised: messages and selected data are numbers, a path selects
    the payload of a message unless the payload is 0, a path parses when it
    starts with a slash and its topic is what precedes the first dot. *)

Module Demo.
Fixpoint upToDot (s : string) : string :=
  match s with
  | EmptyString => EmptyString
  | String c s' => if Ascii.eqb c (Ascii.ascii_of_nat 46) then EmptyString else String c (upToDot s')
  end.

Definition topicName (rosPath : string) : string := rosPath.

Definition parseRosPath (path : string) : option string :=
  if String.prefix "/" path then Some (upToDot path) else None.

Definition cachedGetMessagePathDataItems (path : string) (msgEvent : MessageEvent.t nat)
    : option nat :=
  match MessageEvent.message msgEvent with
  | O => None
  | S n => Some (S n)
  end.

Definition getTimestampForMessage (message : nat) : option Time := None.

Definition toNumber (s : string) : option float :=
  if decide (s = "5") then Some 5%float
  else if decide (s = "0") then Some 0%float
  else None.

Definition subtractTimes (t1 t2 : Time) : Time :=
  mkTime (sec t1 - sec t2) (nsec t1 - nsec t2).

(** An event on [topic] received at second [t] with payload [payload], and
    the sample a path selects from it. *)
Definition event (topic : string) (t : Z) (payload : nat) : MessageEvent.t nat :=
  MessageEvent.mk topic (mkTime t 0) payload.

Definition sample (t : Z) (payload : nat) : PlotDataItem.t nat :=
  PlotDataItem.mk payload (mkTime t 0) None.



Definition inBlock (topic : string) (t : Z) (payload : nat) : MessageAndData.t nat nat :=
  MessageAndData.mk payload (event topic t payload).

(** Three blocks: samples 1 and 2 of [/a], nothing, sample 3 of [/a]. *)
Definition decodeMessagePathsForMessagesByTopic (block : nat)
    : gmap string (list (MessageAndData.t nat nat)) :=
  match block with
  | 0 => {[ "/a" := [inBlock "/a" 1 1; inBlock "/a" 2 2] ]}
  | 2 => {[ "/a" := [inBlock "/a" 3 3] ]}
  | _ => ∅
  end.

Definition index : gmap string (list string) := {[ "/a" := ["/a"] ]}.

Definition emptyStore : heap (PlotDataItem.t nat) nat := empty_heap.

(** A store whose object 0 is empty. *)
Definition fresh : heap (PlotDataItem.t nat) nat := mkHeap [] [] [∅] ∅ ∅.



(** A store whose object 0 holds one sample under [/b]. *)
Definition other : heap (PlotDataItem.t nat) nat :=
  mkHeap [[sample 1 4]] [[0]] [{[ "/b" := 0 ]}] ∅ ∅.


(** A store whose object 0 has entries for [/a] and [/b]. *)
Definition two : heap (PlotDataItem.t nat) nat :=
  mkHeap [[sample 1 4]; [sample 2 5]] [[0]; [1]]
         [<[ "/a" := 0 ]> {[ "/b" := 1 ]}] ∅ ∅.

(** A store whose object 0 holds under [/a] a range list without ranges. *)
Definition hollow : heap (PlotDataItem.t nat) nat :=
  mkHeap [] [[]] [{[ "/a" := 0 ]}] ∅ ∅.
End Demo.

(** ** Opening a sibling Plot panel *)

Inductive TimestampMethod := receiveTime | headerStamp.

(** A path object of the panel configuration. *)
Record PlotPath := mkPlotPath {
  value : string;
  enabled : bool;
  timestampMethod : TimestampMethod;
}.

(** The configuration: its array of references to path objects, and its
    other fields. *)
Record PanelConfig (Rest : Type) := mkPanelConfig {
  paths : list loc;
  otherFields : Rest;
}.
Arguments mkPanelConfig {_} _ _.
Arguments paths {_} _.
Arguments otherFields {_} _.

(** [uniq] of lodash: the first occurrence of every element, in order;
    objects are compared by identity. *)
Definition uniq (array : list loc) : list loc :=
  foldl (λ result x, if decide (x ∈ result) then result else result ++ [x]) [] array.

(** [({ value }) => value]: the path object exists and its value is not the
    empty string. *)
Definition hasValue (pathObjects : list PlotPath) (ref : loc) : bool :=
  match pathObjects !! ref with
  | Some path => negb (String.eqb (value path) "")
  | None => false
  end.

(** The [siblingConfigCreator] that [openSiblingPlotPanel] passes on: the
    object literal is allocated in the table of path objects, and the new
    configuration is returned with the table. *)
Definition siblingConfigCreator {Rest} (topicName : string)
    (pathObjects : list PlotPath) (config : PanelConfig Rest)
    : list PlotPath * PanelConfig Rest :=
  let added := length pathObjects in
  let pathObjects' := pathObjects ++ [mkPlotPath topicName true receiveTime] in
  (pathObjects',
   mkPanelConfig
     (uniq (List.filter (hasValue pathObjects') (paths config ++ [added])))
     (otherFields config)).

(** The argument of [openSiblingPanel]. *)
Record SiblingPanelRequest (Rest : Type) := mkSiblingPanelRequest {
  panelType : string;
  updateIfExists : bool;
  configCreator : list PlotPath → PanelConfig Rest → list PlotPath * PanelConfig Rest;
}.
Arguments mkSiblingPanelRequest {_} _ _ _.
Arguments panelType {_} _.
Arguments updateIfExists {_} _.
Arguments configCreator {_} _.

Definition openSiblingPlotPanel {Rest} (topicName : string) : SiblingPanelRequest Rest :=
  mkSiblingPanelRequest "Plot" true (siblingConfigCreator topicName).

Module DemoConfig.
(** Two path objects, the second without a value, and a configuration that
    names the first one twice. *)
Definition pathObjects : list PlotPath :=
  [mkPlotPath "/a" true receiveTime; mkPlotPath "" true receiveTime].
Definition config : PanelConfig unit := mkPanelConfig [0; 1; 0] tt.
End DemoConfig.

(** ** The Plot panel *)

Section Plot.
(** The collaborators of the panel: message contents and the data a path
    selects, the path parser and evaluator, the header-stamp reader, the
    preloaded blocks with their decoder, JavaScript's unary plus on the
    configured width ([None] is NaN), and time subtraction. *)
Context {Message QueriedData RosPath MessageBlock : Type}.
Context `{Countable MessageBlock}.
Variable topicName : RosPath → string.
Variable parseRosPath : string → option RosPath.
Variable cachedGetMessagePathDataItems :
  string → MessageEvent.t Message → option QueriedData.
Variable getTimestampForMessage : Message → option Time.
Variable decodeMessagePathsForMessagesByTopic :
  MessageBlock → gmap string (list (MessageAndData.t Message QueriedData)).
Variable toNumber : string → option float.
Variable subtractTimes : Time → Time → Time.

Local Abbreviation Item := (PlotDataItem.t QueriedData).
Local Abbreviation Heap := (heap Item MessageBlock).
Local Abbreviation St := (M Item MessageBlock).

(** *** Block accumulator *)

Definition toPlotDataItem (messageAndData : MessageAndData.t Message QueriedData) : Item :=
  let headerStamp :=
    getTimestampForMessage
      (MessageEvent.message (MessageAndData.messageEvent messageAndData)) in
  PlotDataItem.mk (MessageAndData.queriedData messageAndData)
    (MessageEvent.receiveTime (MessageAndData.messageEvent messageAndData))
    headerStamp.

(** [ret[path] = [items.map(...)]] for every entry of [itemsByPath]. *)
Definition getPlotDataByPath
    (itemsByPath : gmap string (list (MessageAndData.t Message QueriedData))) : St loc :=
  let! ret := newObject ∅ in
  let! _ := forEach (λ _ '(path, items),
              let! mapped := newItems (map toPlotDataItem items) in
              let! ranges := newRanges [mapped] in
              setProperty ret path ranges)
            tt (map_to_list itemsByPath) in
  mreturn ret.

(** [memoizeWeak]: one result object per block, computed on first use. *)
Definition getMessagePathItemsForBlock (block : MessageBlock) : St loc :=
  let! cached := getMemo block in
  match cached with
  | Some o => mreturn o
  | None =>
      let! o := getPlotDataByPath (decodeMessagePathsForMessagesByTopic block) in
      let! _ := setMemo block o in
      mreturn o
  end.

(** [for (const item of pathItems) currentRange.push(item)]: the iterator
    reads the array while it grows, so pushing a non-empty array onto
    itself never ends. *)
Definition pushAll (currentRange pathItems : loc) : St unit :=
  let! src := getItems pathItems in
  match src with
  | [] => mreturn tt
  | _ :: _ =>
      if decide (currentRange = pathItems) then mfail
      else let! dst := getItems currentRange in setItems currentRange (dst ++ src)
  end.

(** The body of the inner [forEach] of [getBlockItemsByPath], for the entry
    [[path, messagePathItems]] of block [i]. *)
Definition accumulateEntry (ret : loc) (i : Z)
    (lastBlockIndexForPath : gmap string Z) (entry : string * loc) : St (gmap string Z) :=
  let '(path, messagePathItems) := entry in
  let! retObj := getObject ret in
  let! existingItems :=
    match retObj !! path with
    | Some r => mreturn r
    | None => newRanges []
    end in
  let! ranges := getRanges messagePathItems in
  let pathItems := head ranges in
  let! _ :=
    if decide (lastBlockIndexForPath !! path = Some (i - 1)%Z) then
      let! existing := getRanges existingItems in
      match last existing, pathItems with
      | Some currentRange, Some src => pushAll currentRange src
      | _, _ => mreturn tt
      end
    else
      match pathItems with
      | Some src =>
          let! copy := let! its := getItems src in newItems its in
          let! existing := getRanges existingItems in
          setRanges existingItems (existing ++ [copy])
      | None => mreturn tt
      end in
  let! _ := setProperty ret path existingItems in
  mreturn (<[path := i]> lastBlockIndexForPath).

(** The body of the outer [forEach]. *)
Definition accumulateBlock (ret : loc)
    (lastBlockIndexForPath : gmap string Z) (ib : nat * MessageBlock) : St (gmap string Z) :=
  let '(i, block) := ib in
  let! messagePathItemsForBlock := getMessagePathItemsForBlock block in
  let! entries := getObject messagePathItemsForBlock in
  forEach (accumulateEntry ret (Z.of_nat i)) lastBlockIndexForPath (map_to_list entries).

Definition getBlockItemsByPath (blocks : list MessageBlock) : St loc :=
  let! ret := newObject ∅ in
  let! _ := forEach (accumulateBlock ret) ∅ (zip (seq 0 (length blocks)) blocks) in
  mreturn ret.

(** *** View-window policy *)

Definition showSingleCurrentMessage (xAxisVal : PlotXAxisVal) : bool :=
  bool_decide (xAxisVal = currentCustom) || bool_decide (xAxisVal = index).

Definition timeSincePreloadedStart (xAxisVal : PlotXAxisVal) (startTime : option Time)
    (time : option Time) : option float :=
  match time, startTime with
  | Some t, Some s =>
      if decide (xAxisVal = timestamp) then Some (toSec (subtractTimes t s)) else None
  | _, _ => None
  end.

Definition followingView (followingViewWidth : option string) : option ChartDefaultView :=
  match followingViewWidth with
  | Some w =>
      match toNumber w with
      | Some n => if num_lt 0 n then Some (following n) else None
      | None => None
      end
  | None => None
  end.

Definition fixedView (xAxisVal : PlotXAxisVal) (startTime : option Time)
    (endTimeSinceStart : option float) : option ChartDefaultView :=
  match startTime, endTimeSinceStart with
  | Some _, Some e => if decide (xAxisVal = timestamp) then Some (fixed 0 e) else None
  | _, _ => None
  end.

Definition defaultView (followingViewWidth : option string) (xAxisVal : PlotXAxisVal)
    (startTime endTime : option Time) : option ChartDefaultView :=
  let endTimeSinceStart := timeSincePreloadedStart xAxisVal startTime endTime in
  match followingView followingViewWidth with
  | Some v => Some v
  | None =>
      match fixedView xAxisVal startTime endTimeSinceStart with
      | Some v => Some v
      | None => None
      end
  end.

(** *** Path index *)

(** [yAxisPaths.map(value).concat(compact([xAxisPath?.value]))] *)
Definition allPaths (yAxisPaths : list string) (xAxisPath : option string) : list string :=
  yAxisPaths ++
    match xAxisPath with
    | Some v => if decide (v = "") then [] else [v]
    | None => []
    end.

Definition topicToPaths (allPaths : list string) : gmap string (list string) :=
  foldl (λ out path,
           match parseRosPath path with
           | None => out
           | Some rosPath =>
               let existing := default [] (out !! topicName rosPath) in
               <[topicName rosPath := existing ++ [path]]> out
           end) ∅ allPaths.

(** *** Block data, restore, the streaming reducer and the merge *)

Definition plotDataForBlocks (xAxisVal : PlotXAxisVal) (blocks : list MessageBlock) : St loc :=
  if showSingleCurrentMessage xAxisVal then newObject ∅
  else getBlockItemsByPath blocks.

(** [Object.keys(plotDataForBlocks)]; the block data holds range-list
    properties only. *)
Definition blockPaths (plotDataForBlocks : loc) : St (list string) :=
  let! obj := getObject plotDataForBlocks in
  mreturn (map fst (map_to_list obj)).

(** [previous[path]] is read for every configured path text, so it also
    finds what [previous] inherits; whatever is found and truthy is
    assigned. *)
Definition restore (allPaths : list string) (previous : option loc) : St loc :=
  match previous with
  | None => newObject ∅
  | Some previous =>
      let! updated := newObject ∅ in
      let! _ := forEach (λ _ path,
                  let! plotData := getProperty previous path in
                  match plotData with
                  | Some (rangeList r) => setProperty updated path r
                  | Some (prototypeMember _) => setMember updated path
                  | None => mreturn tt
                  end) tt allPaths in
      mreturn updated
  end.

(** The part of the loop body of [addMessages] that stores [plotDataItem]
    under [path]. *)
Definition storeItem (single : bool) (followingView : option ChartDefaultView)
    (lastEventTime : option Time) (accumulated : loc)
    (path : string) (plotDataItem : Item) : St unit :=
  if single then
    let! inner := newItems [plotDataItem] in
    let! outer := newRanges [inner] in
    setProperty accumulated path outer
  else
    let! acc := getObject accumulated in
    let! plotDataPath :=
      match acc !! path with
      | Some r => mreturn r
      | None =>
          let! inner := newItems [] in
          let! outer := newRanges [inner] in
          let! _ := setProperty accumulated path outer in
          mreturn outer
      end in
    let! ranges := getRanges plotDataPath in
    match ranges with
    | [] => mfail   (* plotDataPath[0] is undefined: push throws *)
    | plotDataItems :: rest =>
        let! items := getItems plotDataItems in
        let! _ := setItems plotDataItems (items ++ [plotDataItem]) in
        match lastEventTime, followingView with
        | Some lastEventTime, Some (following width) =>
            let minStamp := PrimFloat.sub (toSec lastEventTime) width in
            let! items := getItems plotDataItems in
            let! filtered :=
              newItems (filterMap items (λ item,
                if num_lt (toSec (PlotDataItem.receiveTime item)) minStamp
                then None else Some item)) in
            setRanges plotDataPath (filtered :: rest)
        | _, _ => mreturn tt
        end
    end.

Definition addMessagesPath (single : bool) (followingView : option ChartDefaultView)
    (blockPathsMemo : list string) (lastEventTime : option Time) (accumulated : loc)
    (msgEvent : MessageEvent.t Message) (changed : bool) (path : string) : St bool :=
  if decide (path ∈ blockPathsMemo) then mreturn changed
  else
    match cachedGetMessagePathDataItems path msgEvent with
    | None => mreturn changed
    | Some dataItem =>
        let headerStamp := getTimestampForMessage (MessageEvent.message msgEvent) in
        let plotDataItem :=
          PlotDataItem.mk dataItem (MessageEvent.receiveTime msgEvent) headerStamp in
        let! _ := storeItem single followingView lastEventTime accumulated
                    path plotDataItem in
        mreturn true
    end.

Definition addMessagesEvent (single : bool) (followingView : option ChartDefaultView)
    (topicToPaths : gmap string (list string)) (blockPathsMemo : list string)
    (lastEventTime : option Time) (accumulated : loc)
    (changed : bool) (msgEvent : MessageEvent.t Message) : St bool :=
  match topicToPaths !! MessageEvent.topic msgEvent with
  | None => mreturn changed
  | Some paths =>
      forEach (addMessagesPath single followingView blockPathsMemo lastEventTime
                 accumulated msgEvent) changed paths
  end.

Definition addMessages (single : bool) (followingView : option ChartDefaultView)
    (topicToPaths : gmap string (list string)) (blockPathsMemo : list string)
    (accumulated : loc) (msgEvents : list (MessageEvent.t Message)) : St loc :=
  let lastEventTime := MessageEvent.receiveTime <$> last msgEvents in
  let! changed :=
    forEach (addMessagesEvent single followingView topicToPaths blockPathsMemo
               lastEventTime accumulated) false msgEvents in
  if (changed : bool) then
    spread accumulated
  else mreturn accumulated.



(** *** The reducer in use *)

(** A call of one of the two callbacks the panel hands to
    [useMessageReducer], with the values their closures hold at the call:
    [restore(undefined)], [restore(state)] or [addMessages(state, msgEvents)]. *)
Inductive reducerCall :=
| callReset (allPaths : list string)
| callRestore (allPaths : list string)
| callAddMessages (single : bool) (followingView : option ChartDefaultView)
    (topicToPaths : gmap string (list string)) (blockPathsMemo : list string)
    (msgEvents : list (MessageEvent.t Message)).

Definition reducerStep (state : loc) (call : reducerCall) : St loc :=
  match call with
  | callReset allPaths => restore allPaths None
  | callRestore allPaths => restore allPaths (Some state)
  | callAddMessages single followingView topicToPaths blockPathsMemo msgEvents =>
      addMessages single followingView topicToPaths blockPathsMemo state msgEvents
  end.

(** The calls one after the other, the first on the result of
    [restore(undefined)], each later one on what the call before it
    returned. *)
Definition reducerCalls (allPaths : list string) (calls : list reducerCall) : St loc :=
  let! state := restore allPaths None in
  forEach reducerStep state calls.

(** Every path with an entry holds exactly one range. *)
Definition one_range (h : Heap) (state : loc) : Prop :=
  ∀ path ranges, readPath h state path = Some ranges → length ranges = 1.

(** *** Proof support: the segment rule *)






(** *** Proof support: the per-block cache and the accumulator *)




(** *** Proof support: what a batch stores *)

(** The sample [addMessages] builds for [path] from [msgEvent], if any. *)
Definition sampleFor (blockPathsMemo : list string) (msgEvent : MessageEvent.t Message)
    (path : string) : option Item :=
  if decide (path ∈ blockPathsMemo) then None
  else
    (λ dataItem, PlotDataItem.mk dataItem (MessageEvent.receiveTime msgEvent)
                   (getTimestampForMessage (MessageEvent.message msgEvent)))
      <$> cachedGetMessagePathDataItems path msgEvent.

Definition eventSamples (topicToPaths : gmap string (list string))
    (blockPathsMemo : list string) (msgEvent : MessageEvent.t Message)
    : list (string * Item) :=
  omap (λ path, (λ item, (path, item)) <$> sampleFor blockPathsMemo msgEvent path)
       (default [] (topicToPaths !! MessageEvent.topic msgEvent)).

(** Every (path, sample) pair a batch stores, in the order it stores them. *)
Definition batchSamples (topicToPaths : gmap string (list string))
    (blockPathsMemo : list string) (msgEvents : list (MessageEvent.t Message))
    : list (string * Item) :=
  msgEvents ≫= eventSamples topicToPaths blockPathsMemo.

(** The samples of a batch for one path. *)
Definition samplesOf (path : string) (samples : list (string * Item)) : list Item :=
  omap (λ s, if decide (s.1 = path) then Some s.2 else None) samples.

Definition storeAll (single : bool) (followingView : option ChartDefaultView)
    (lastEventTime : option Time) (accumulated : loc)
    (samples : list (string * Item)) : St unit :=
  forEach (λ _ s, storeItem single followingView lastEventTime accumulated s.1 s.2)
          tt samples.

(** The [changed] flag after a run that stored [samples]. *)
Definition changedBy (changed : bool) (samples : list (string * Item)) : bool :=
  match samples with [] => changed | _ :: _ => true end.

(** The trailing-window trim of [storeItem]. *)
Definition trim (followingView : option ChartDefaultView) (lastEventTime : option Time)
    (items : list Item) : list Item :=
  match lastEventTime, followingView with
  | Some lastEventTime, Some (following width) =>
      filterMap items (λ item,
        if num_lt (toSec (PlotDataItem.receiveTime item))
                  (PrimFloat.sub (toSec lastEventTime) width)
        then None else Some item)
  | _, _ => items
  end.



(** The contents of a path after one sample is stored. *)
Definition stored (single : bool) (followingView : option ChartDefaultView)
    (lastEventTime : option Time) (old : option (list (list Item))) (x : Item)
    : list (list Item) :=
  if single then [[x]]
  else match old with
       | Some (range0 :: rest) => trim followingView lastEventTime (range0 ++ [x]) :: rest
       | _ => [trim followingView lastEventTime [x]]
       end.

(** The contents of a path after the samples [xs] are stored, in order. *)
Definition storedAll (single : bool) (followingView : option ChartDefaultView)
    (lastEventTime : option Time) (old : option (list (list Item))) (xs : list Item)
    : option (list (list Item)) :=
  foldl (λ o x, Some (stored single followingView lastEventTime o x)) old xs.

(** No event of the batch yields a sample for [path]: whenever the topic
    of an event is in the index and lists [path], the path is served by
    the blocks or selects nothing in the message. *)
Definition untouched (topicToPaths : gmap string (list string))
    (blockPathsMemo : list string) (msgEvents : list (MessageEvent.t Message))
    (path : string) : Prop :=
  ∀ msgEvent paths,
    msgEvent ∈ msgEvents → topicToPaths !! MessageEvent.topic msgEvent = Some paths →
    path ∈ paths →
    path ∈ blockPathsMemo ∨ cachedGetMessagePathDataItems path msgEvent = None.


(** The first range and the later ranges of the contents of a path. *)
Definition range0 (old : option (list (list Item))) : list Item :=
  match old with Some (r0 :: _) => r0 | _ => [] end.

(** *** Proof support: well-formed stores *)

(** A range list the reducer can extend: it has a first range, which is
    not one of its later ranges, and its ranges exist. *)
Definition range_ok (h : Heap) (r : loc) : Prop :=
  ∃ i rest, range_arrays h !! r = Some (i :: rest) ∧ (i ∉ rest) ∧
            Forall (λ j, j < length (item_arrays h)) (i :: rest).

(** Distinct paths of an object share neither their range list nor the
    first range of one of them. *)
Definition separated (h : Heap) (m : gmap string loc) : Prop :=
  ∀ p q rp rq rsp iq restq,
    p ≠ q → m !! p = Some rp → m !! q = Some rq →
    range_arrays h !! rp = Some rsp → range_arrays h !! rq = Some (iq :: restq) →
    rp ≠ rq ∧ iq ∉ rsp.

(** The accumulated states the reducer produces. *)
Definition well_formed (h : Heap) (accumulated : loc) : Prop :=
  ∃ m, objects h !! accumulated = Some m ∧
       map_Forall (λ _ r, range_ok h r) m ∧ separated h m.

(** The reference stored under a path. *)
Definition entry (h : Heap) (o : loc) (path : string) : option loc :=
  m ← objects h !! o; m !! path.


(** The member entries of the store are such as [restore] makes: each is a
    property of an object that exists, under the name of a member of
    [Object.prototype]. *)
Definition members_ok (h : Heap) : Prop :=
  ∀ o key, (o, key) ∈ members h → o < length (objects h) ∧ key ∈ objectPrototype.

(** A computation that leaves the member entries as they are. *)
Definition keeps_members {A} (c : St A) : Prop :=
  ∀ h a h', c h = Some (a, h') → members h' = members h.

(** No path of the index is the name of something an object inherits from
    [Object.prototype]. *)
Definition plainIndex (topicToPaths : gmap string (list string)) : Prop :=
  ∀ topic paths path,
    topicToPaths !! topic = Some paths → path ∈ paths →
    path ∉ "__proto__" :: objectPrototype.

(** The index of a call of [addMessages] is plain. *)
Definition plainCall (call : reducerCall) : Prop :=
  match call with
  | callAddMessages _ _ topicToPaths _ _ => plainIndex topicToPaths
  | _ => True
  end.

(** The effect on [h] of storing under [q] of [accumulated] a sample that
    leaves [q] with the contents [new]. *)
Definition stores (h h' : Heap) (accumulated : loc) (q : string)
    (new : list (list Item)) : Prop :=
  well_formed h' accumulated ∧
  readPath h' accumulated q = Some new ∧
  (∀ p, p ≠ q → readPath h' accumulated p = readPath h accumulated p ∧
                entry h' accumulated p = entry h accumulated p) ∧
  (∀ o, o ≠ accumulated → objects h' !! o = objects h !! o) ∧
  length (objects h') = length (objects h) ∧
  block_memo h' = block_memo h.

(** *** Proof support: what a call leaves alone *)




(** *** Proof support: the path index *)

(** The paths of [allPaths] that parse to [topic], in their order. *)
Definition pathsOfTopic (allPaths : list string) (topic : string) : list string :=
  filter (λ path, topicName <$> parseRosPath path = Some topic) allPaths.

Lemma topicToPaths_foldl (paths : list string) (out : gmap string (list string)) topic :
  foldl (λ out path,
           match parseRosPath path with
           | None => out
           | Some rosPath =>
               let existing := default [] (out !! topicName rosPath) in
               <[topicName rosPath := existing ++ [path]]> out
           end) out paths !! topic =
  match pathsOfTopic paths topic with
  | [] => out !! topic
  | l => Some (default [] (out !! topic) ++ l)
  end.
Proof.
  revert out. induction paths as [|path paths IH]; intros out; [done|].
  cbn [foldl]. rewrite IH. unfold pathsOfTopic. rewrite filter_cons.
  destruct (parseRosPath path) as [rosPath|] eqn:Hp; cbn [fmap option_fmap option_map].
  - destruct (decide (topicName rosPath = topic)) as [->|Hne].
    + rewrite decide_True by done. rewrite lookup_insert_eq. cbn [default].
      destruct (filter _ paths); [done|].
      unfold id. by rewrite <- app_assoc.
    + rewrite decide_False by congruence. by rewrite lookup_insert_ne.
  - by rewrite decide_False.
Qed.

Lemma topicToPaths_lookup (paths : list string) topic :
  topicToPaths paths !! topic =
  match pathsOfTopic paths topic with [] => None | l => Some l end.
Proof.
  unfold topicToPaths. rewrite topicToPaths_foldl, lookup_empty.
  by destruct (pathsOfTopic paths topic).
Qed.

(** C8. The index is a total function of the path list (building it raises
    nothing); the entry of a topic is the list of the configured paths
    that parse to that topic, in the order of the path list, and a topic
    to which no path parses has no entry.  So a path that fails to parse
    occurs in no entry, and a path that parses occurs in the entry of its
    topic. *)
Theorem topicToPaths_index (paths : list string) :
  (∀ topic, topicToPaths paths !! topic =
            match pathsOfTopic paths topic with [] => None | l => Some l end) ∧
  (∀ path, parseRosPath path = None →
           ∀ topic l, topicToPaths paths !! topic = Some l → path ∉ l) ∧
  (∀ path rosPath, path ∈ paths → parseRosPath path = Some rosPath →
           ∃ l, topicToPaths paths !! topicName rosPath = Some l ∧ path ∈ l ∧
                l = pathsOfTopic paths (topicName rosPath)).
Proof.
  split; [apply topicToPaths_lookup|]. split.
  - intros path Hfail topic l. rewrite topicToPaths_lookup.
    intros Hl Hin.
    assert (path ∈ pathsOfTopic paths topic) as Hf.
    { destruct (pathsOfTopic paths topic); [done|]. by simplify_eq. }
    apply list_elem_of_filter in Hf as [Hf _]. by rewrite Hfail in Hf.
  - intros path rosPath Hin Hparse.
    assert (path ∈ pathsOfTopic paths (topicName rosPath)) as Hf.
    { apply list_elem_of_filter. split; [by rewrite Hparse|done]. }
    rewrite topicToPaths_lookup.
    destruct (pathsOfTopic paths (topicName rosPath)) as [|x l] eqn:E.
    + by apply elem_of_nil in Hf.
    + by exists (x :: l).
Qed.

(** *** View-window policy *)

(** C7. A width that converts to a number strictly above 0 selects the
    following view of that width, whatever the axis mode and the times;
    with no width, a width that is not a number, or a width not above 0,
    the view is fixed [0, toSec(end - start)] when the mode is timestamp
    and both times are known, and undefined otherwise. *)
Theorem defaultView_selection (followingViewWidth : option string)
    (xAxisVal : PlotXAxisVal) (startTime endTime : option Time) :
  let width := followingViewWidth ≫= toNumber in
  let positive := ∃ n, width = Some n ∧ num_lt 0 n = true in
  (∀ n, width = Some n → num_lt 0 n = true →
     defaultView followingViewWidth xAxisVal startTime endTime = Some (following n)) ∧
  (¬ positive → ∀ s e, xAxisVal = timestamp → startTime = Some s → endTime = Some e →
     defaultView followingViewWidth xAxisVal startTime endTime =
       Some (fixed 0 (toSec (subtractTimes e s)))) ∧
  (¬ positive → xAxisVal ≠ timestamp ∨ startTime = None ∨ endTime = None →
     defaultView followingViewWidth xAxisVal startTime endTime = None).
Proof.
  cbv zeta.
  assert (Hoff : ¬ (∃ n, followingViewWidth ≫= toNumber = Some n ∧ num_lt 0 n = true) →
                 followingView followingViewWidth = None).
  { intros Hno. unfold followingView.
    destruct followingViewWidth as [w|]; [|done]. cbn in Hno.
    destruct (toNumber w) as [n|]; [|done].
    destruct (num_lt 0 n) eqn:E; [|done].
    exfalso. apply Hno. by exists n. }
  repeat split.
  - intros n Hw Hpos. unfold defaultView, followingView.
    destruct followingViewWidth as [w|]; [|done]. cbn in Hw. rewrite Hw.
    by rewrite Hpos.
  - intros Hno s e -> -> ->. unfold defaultView. by rewrite (Hoff Hno).
  - intros Hno Hcase. unfold defaultView. rewrite (Hoff Hno).
    unfold fixedView, timeSincePreloadedStart.
    destruct startTime, endTime; try done.
    destruct Hcase as [Hx|[?|?]]; [|done..].
    by rewrite decide_False.
Qed.

(** *** The streaming reducer *)

Lemma well_formed_empty (h : Heap) accumulated :
  objects h !! accumulated = Some ∅ → well_formed h accumulated.
Proof.
  intros Hm. exists ∅. split; [done|]. split.
  - apply map_Forall_empty.
  - intros p q rp rq rsp iq restq _ Hp. by rewrite lookup_empty in Hp.
Qed.


Lemma mapM_lookup_ext (l l' : list (list Item)) (rs : list loc) :
  (∀ j, j ∈ rs → l' !! j = l !! j) →
  mapM (λ i, l' !! i) rs = mapM (λ i, l !! i) rs.
Proof.
  induction rs as [|i rs IH]; intros Hext; [done|].
  cbn. rewrite Hext by apply list_elem_of_here.
  rewrite IH; [done|]. intros j Hj. apply Hext. by apply list_elem_of_further.
Qed.

Lemma readRanges_frame (h h' : Heap) r rs :
  range_arrays h !! r = Some rs → range_arrays h' !! r = Some rs →
  (∀ j, j ∈ rs → item_arrays h' !! j = item_arrays h !! j) →
  readRanges h' r = readRanges h r.
Proof.
  intros Hr Hr' Hit. unfold readRanges. rewrite Hr, Hr'. cbn.
  by apply mapM_lookup_ext.
Qed.


Lemma Forall_lt_notin (n : nat) (l : list loc) j :
  Forall (λ i, i < n) l → n ≤ j → j ∉ l.
Proof.
  intros Hall Hle Hin. rewrite Forall_forall in Hall.
  specialize (Hall j Hin). lia.
Qed.

Lemma lookup_snoc_new {A} (l : list A) (x : A) : (l ++ [x]) !! length l = Some x.
Proof. by apply list_lookup_middle. Qed.

Lemma insert_snoc {A} (l : list A) (x y : A) : <[length l := y]> (l ++ [x]) = l ++ [y].
Proof. rewrite insert_app_r_alt by lia. by rewrite Nat.sub_diag. Qed.

(** [accumulated[q] = [l]] with a new array [l] in a new range list. *)
Lemma stores_fresh (h : Heap) accumulated m q (l : list Item) :
  objects h !! accumulated = Some m →
  well_formed h accumulated →
  stores h
    (mkHeap (item_arrays h ++ [l]) (range_arrays h ++ [[length (item_arrays h)]])
            (<[accumulated := <[q := length (range_arrays h)]> m]> (objects h))
            (block_memo h) (members h))
    accumulated q [l].
Proof.
  intros Hm (m' & Hm' & Hok & Hsep). assert (m' = m) as -> by congruence. clear Hm'.
  pose proof (lookup_lt_Some _ _ _ Hm) as Hlt.
  set (iN := length (item_arrays h)). set (rN := length (range_arrays h)).
  assert (Hold : ∀ p rp, m !! p = Some rp → ∃ i rest,
            range_arrays h !! rp = Some (i :: rest) ∧
            (range_arrays h ++ [[iN]]) !! rp = Some (i :: rest) ∧ (i ∉ rest) ∧ (rp ≠ rN) ∧
            Forall (λ j, j < iN) (i :: rest)).
  { intros p rp Hp. destruct (Hok p rp Hp) as (i & rest & Hr & Hni & Hall).
    exists i, rest. split_and!; try done.
    - by apply lookup_app_l_Some.
    - apply lookup_lt_Some in Hr. unfold rN. lia. }
  unfold stores, well_formed, readPath, entry. cbn.
  rewrite list_lookup_insert_eq by done. cbn.
  split_and!.
  - eexists. split; [done|]. split.
    + intros p rp. rewrite lookup_insert. case_decide as Hpq.
      * intros [= <-]. exists iN, []. cbn. split_and!.
        -- apply lookup_snoc_new.
        -- apply not_elem_of_nil.
        -- apply Forall_singleton. rewrite length_app. cbn. lia.
      * intros Hp. destruct (Hold p rp Hp) as (i & rest & _ & Hr & Hni & _ & Hall).
        exists i, rest. cbn. split_and!; try done.
        eapply Forall_impl; [done|]. cbn. intros. rewrite length_app. cbn. lia.
    + intros p q' rp rq rsp iq restq Hne. cbn.
      rewrite !lookup_insert. repeat case_decide; subst; try done.
      * intros [= <-] Hq'. destruct (Hold _ _ Hq') as (i & rest & _ & Hr & _ & Hn & Hall).
        unfold rN. rewrite lookup_snoc_new, Hr.
        intros [= <-] [= <- <-]. split; [done|].
        rewrite list_elem_of_singleton. apply Forall_cons in Hall as [? _]. lia.
      * intros Hp [= <-]. destruct (Hold _ _ Hp) as (i & rest & _ & Hr & _ & Hn & Hall).
        unfold rN. rewrite lookup_snoc_new, Hr.
        intros [= <-] [= <- <-]. split; [done|].
        eapply Forall_lt_notin; [done|lia].
      * intros Hp Hq'.
        destruct (Hold _ _ Hp) as (i & rest & Hr0 & Hr & _ & _ & _).
        destruct (Hold _ _ Hq') as (i' & rest' & Hr0' & Hr' & _ & _ & _).
        rewrite Hr, Hr'. intros [= <-] [= <- <-].
        by apply (Hsep p q' rp rq (i :: rest) i' rest').
  - rewrite lookup_insert_eq. cbn. unfold readRanges. cbn.
    unfold rN. rewrite lookup_snoc_new. cbn.
    unfold iN. by rewrite lookup_snoc_new.
  - intros p Hpq. rewrite Hm. cbn. rewrite lookup_insert_ne by done. split; [|done].
    destruct (m !! p) as [rp|] eqn:Hp; [|done]. cbn.
    destruct (Hold _ _ Hp) as (i & rest & Hr0 & Hr & _ & _ & Hall).
    eapply readRanges_frame; [done..|]. cbn. intros j Hj.
    apply lookup_app_l. rewrite Forall_forall in Hall. by apply Hall.
  - intros o Ho. by rewrite list_lookup_insert_ne.
  - by rewrite length_insert.
  - done.
Qed.

(** [plotDataItems.push(...)]: the first range of [q] is overwritten in
    place. *)
Lemma stores_push (h : Heap) accumulated q r i rest old0 restc (l : list Item) :
  well_formed h accumulated →
  entry h accumulated q = Some r →
  range_arrays h !! r = Some (i :: rest) →
  readPath h accumulated q = Some (old0 :: restc) →
  stores h
    (mkHeap (<[i := l]> (item_arrays h)) (range_arrays h) (objects h) (block_memo h) (members h))
    accumulated q (l :: restc).
Proof.
  intros (m & Hm & Hok & Hsep) He Hr Hread.
  unfold entry in He. rewrite Hm in He. cbn in He.
  destruct (Hok q r He) as (i' & rest' & Hr' & Hni & Hall).
  rewrite Hr in Hr'. injection Hr' as <- <-.
  apply Forall_cons in Hall as [Hi Hrest].
  unfold stores, well_formed, readPath, entry. cbn. rewrite Hm. cbn.
  split_and!; try done.
  - exists m. split; [done|]. split; [|done].
    intros p rp Hp. destruct (Hok p rp Hp) as (j & rest' & ? & ? & ?).
    exists j, rest'. cbn. by rewrite length_insert.
  - rewrite He. cbn. unfold readRanges. cbn. rewrite Hr. cbn.
    rewrite list_lookup_insert_eq by done. cbn.
    unfold readPath, readRanges in Hread. rewrite Hm in Hread. cbn in Hread.
    rewrite He in Hread. cbn in Hread. rewrite Hr in Hread. cbn in Hread.
    destruct (item_arrays h !! i) as [its|]; [|done]. cbn in Hread.
    rewrite (mapM_lookup_ext (item_arrays h)).
    + destruct (mapM _ rest) as [rc|]; [|done]. cbn in Hread |- *.
      unfold mret, option_ret in Hread |- *. congruence.
    + intros j Hj. apply list_lookup_insert_ne. congruence.
  - intros p Hpq. split; [|done].
    destruct (m !! p) as [rp|] eqn:Hp; [|done]. cbn.
    destruct (Hok p rp Hp) as (j & rest' & Hrp & _ & _).
    eapply readRanges_frame; [done..|]. cbn. intros k Hk.
    apply list_lookup_insert_ne.
    destruct (Hsep p q rp r (j :: rest') i rest) as [_ Hnot]; try done. congruence.
Qed.

(** [plotDataPath[0] = filterMap(...)]: the first range of [q] becomes a
    new array. *)
Lemma stores_replace (h : Heap) accumulated q r i rest old0 restc (l : list Item) :
  well_formed h accumulated →
  entry h accumulated q = Some r →
  range_arrays h !! r = Some (i :: rest) →
  readPath h accumulated q = Some (old0 :: restc) →
  stores h
    (mkHeap (item_arrays h ++ [l]) (<[r := length (item_arrays h) :: rest]> (range_arrays h))
            (objects h) (block_memo h) (members h))
    accumulated q (l :: restc).
Proof.
  intros (m & Hm & Hok & Hsep) He Hr Hread.
  unfold entry in He. rewrite Hm in He. cbn in He.
  destruct (Hok q r He) as (i' & rest' & Hr' & Hni & Hall).
  rewrite Hr in Hr'. injection Hr' as <- <-.
  apply Forall_cons in Hall as [Hi Hrest].
  pose proof (lookup_lt_Some _ _ _ Hr) as Hrlt.
  set (iN := length (item_arrays h)).
  assert (Hother : ∀ p rp, p ≠ q → m !! p = Some rp → ∃ j rest',
            range_arrays h !! rp = Some (j :: rest') ∧
            <[r := iN :: rest]> (range_arrays h) !! rp = Some (j :: rest') ∧
            (j ∉ rest') ∧ (j ∉ i :: rest) ∧ (i ∉ j :: rest') ∧
            Forall (λ k, k < iN) (j :: rest')).
  { intros p rp Hpq Hp. destruct (Hok p rp Hp) as (j & rest' & Hrp & ? & ?).
    destruct (Hsep p q rp r (j :: rest') i rest) as [Hne ?]; try done.
    destruct (Hsep q p r rp (i :: rest) j rest') as [_ ?]; try done.
    exists j, rest'. split_and!; try done. by rewrite list_lookup_insert_ne. }
  unfold stores, well_formed, readPath, entry. cbn. rewrite Hm. cbn.
  split_and!; try done.
  - exists m. split; [done|]. split.
    + intros p rp Hp. destruct (decide (p = q)) as [->|Hpq].
      * assert (rp = r) as -> by congruence. exists iN, rest. cbn. split_and!.
        -- by apply list_lookup_insert_eq.
        -- eapply Forall_lt_notin; [done|]. unfold iN. lia.
        -- rewrite length_app. cbn. apply Forall_cons. split; [unfold iN; lia|].
           eapply Forall_impl; [done|]. cbn. lia.
      * destruct (Hother p rp Hpq Hp) as (j & rest' & _ & Hrp & ? & _ & _ & Hb).
        exists j, rest'. cbn. split_and!; try done. rewrite length_app. cbn.
        eapply Forall_impl; [done|]. cbn. unfold iN. lia.
    + intros p q' rp rq rsp iq restq Hne Hp Hq'. cbn.
      destruct (decide (p = q)) as [->|Hpq]; [|destruct (decide (q' = q)) as [->|Hq'q]].
      * assert (rp = r) as -> by congruence.
        destruct (Hother q' rq (not_eq_sym Hne) Hq')
          as (j & rest' & Hrq0 & Hrq & _ & Hj & _ & Hb).
        rewrite list_lookup_insert_eq, Hrq by done. intros [= <-] [= <- <-].
        split; [apply lookup_lt_Some in Hrq0; intros ->|].
        { rewrite list_lookup_insert_eq in Hrq by done. injection Hrq as <- <-.
          apply Forall_cons in Hb as [Hb _]. lia. }
        rewrite not_elem_of_cons. split.
        -- apply Forall_cons in Hb as [Hb _]. lia.
        -- rewrite not_elem_of_cons in Hj. by destruct Hj.
      * assert (rq = r) as -> by congruence.
        destruct (Hother p rp Hpq Hp) as (j & rest' & Hrp0 & Hrp & _ & _ & _ & Hb).
        rewrite list_lookup_insert_eq, Hrp by done. intros [= <-] [= <- <-].
        split.
        { intros ->. rewrite list_lookup_insert_eq in Hrp by done.
          injection Hrp as <- <-. apply Forall_cons in Hb as [Hb _]. lia. }
        eapply Forall_lt_notin; [done|lia].
      * destruct (Hother p rp Hpq Hp) as (j & rest' & Hrp0 & Hrp & _).
        destruct (Hother q' rq Hq'q Hq') as (j' & rest'' & Hrq0 & Hrq & _).
        rewrite Hrp, Hrq. intros [= <-] [= <- <-].
        by apply (Hsep p q' rp rq (j :: rest') j' rest'').
  - rewrite He. cbn. unfold readRanges. cbn.
    rewrite list_lookup_insert_eq by done. cbn.
    unfold iN. rewrite lookup_snoc_new. cbn.
    unfold readPath, readRanges in Hread. rewrite Hm in Hread. cbn in Hread.
    rewrite He in Hread. cbn in Hread. rewrite Hr in Hread. cbn in Hread.
    destruct (item_arrays h !! i) as [its|]; [|done]. cbn in Hread.
    rewrite (mapM_lookup_ext (item_arrays h)).
    + destruct (mapM _ rest) as [rc|]; [|done]. cbn in Hread |- *.
      unfold mret, option_ret in Hread |- *. congruence.
    + intros j Hj. apply lookup_app_l. rewrite Forall_forall in Hrest. by apply Hrest.
  - intros p Hpq. split; [|done].
    destruct (m !! p) as [rp|] eqn:Hp; [|done]. cbn.
    destruct (Hother p rp Hpq Hp) as (j & rest' & Hrp0 & Hrp & _ & _ & _ & Hb).
    eapply readRanges_frame; [done..|]. cbn. intros k Hk.
    apply lookup_app_l. rewrite Forall_forall in Hb. by apply Hb.
Qed.

Lemma stores_trans (h h1 h2 : Heap) accumulated q new1 new2 :
  stores h h1 accumulated q new1 → stores h1 h2 accumulated q new2 →
  stores h h2 accumulated q new2.
Proof.
  intros (_ & _ & Hf1 & Ho1 & Hl1 & Hb1) (Hwf & Hq & Hf2 & Ho2 & Hl2 & Hb2).
  split_and!; try done.
  - intros p Hp. destruct (Hf1 p Hp) as [<- <-]. by apply Hf2.
  - intros o Ho. rewrite <- Ho1 by done. by apply Ho2.
  - congruence.
  - congruence.
Qed.

Lemma range_ok_read (h : Heap) r :
  range_ok h r →
  ∃ i rest its restc, range_arrays h !! r = Some (i :: rest) ∧
    item_arrays h !! i = Some its ∧ readRanges h r = Some (its :: restc).
Proof.
  intros (i & rest & Hr & _ & Hall). apply Forall_cons in Hall as [Hi Hrest].
  destruct (lookup_lt_is_Some_2 _ _ Hi) as [its Hits].
  assert (is_Some (mapM (λ j, item_arrays h !! j) rest)) as [restc Hrc].
  { apply mapM_is_Some. eapply Forall_impl; [done|]. cbn.
    intros j Hj. by apply lookup_lt_is_Some_2. }
  exists i, rest, its, restc. split_and!; try done.
  unfold readRanges. rewrite Hr. cbn. by rewrite Hits, Hrc.
Qed.

(** Storing into a path that is present. *)
Lemma storeItem_present followingView lastEventTime (h : Heap) accumulated q r x :
  well_formed h accumulated → entry h accumulated q = Some r →
  ∃ h', storeItem false followingView lastEventTime accumulated q x h = Some (tt, h') ∧
        stores h h' accumulated q
          (stored false followingView lastEventTime (readPath h accumulated q) x).
Proof.
  intros Hwf He. pose proof Hwf as (m & Hm & Hok & Hsep).
  pose proof He as He'. unfold entry in He'. rewrite Hm in He'. cbn in He'.
  destruct (range_ok_read h r (Hok q r He')) as (i & rest & its & restc & Hr & Hi & Hread).
  assert (Hpath : readPath h accumulated q = Some (its :: restc)).
  { unfold readPath. rewrite Hm. cbn. by rewrite He'. }
  rewrite Hpath. cbn [stored].
  pose proof (lookup_lt_Some _ _ _ Hi) as Hilt.
  pose proof (stores_push h accumulated q r i rest its restc (its ++ [x])
                Hwf He Hr Hpath) as Hpush.
  set (h1 := mkHeap (<[i := its ++ [x]]> (item_arrays h)) (range_arrays h)
                    (objects h) (block_memo h) (members h)) in Hpush.
  assert (Hgo : storeItem false followingView lastEventTime accumulated q x h =
    match lastEventTime, followingView with
    | Some t, Some (following w) =>
        Some (tt, mkHeap (item_arrays h1 ++ [trim followingView lastEventTime (its ++ [x])])
                         (<[r := length (item_arrays h1) :: rest]> (range_arrays h1))
                         (objects h1) (block_memo h1) (members h1))
    | _, _ => Some (tt, h1)
    end).
  { unfold storeItem, mthen, getObject, getRanges, getItems, setItems, newItems,
      setRanges, mreturn. cbn. rewrite Hm. cbn. rewrite He'. cbn. rewrite Hr. cbn.
    rewrite Hi. cbn. rewrite Hi.
    destruct lastEventTime as [t|]; [|done].
    destruct followingView as [[w|]|]; try done.
    cbn. rewrite list_lookup_insert_eq by done. cbn. by rewrite Hr. }
  rewrite Hgo.
  assert (Hid : ∀ l, match lastEventTime, followingView with
                     | Some _, Some (following _) => True
                     | _, _ => trim followingView lastEventTime l = l
                     end).
  { intros l. unfold trim. destruct lastEventTime; [|done].
    by destruct followingView as [[|]|]. }
  specialize (Hid (its ++ [x])).
  destruct lastEventTime as [t|]; [|eexists; split; [done|]; by rewrite Hid].
  destruct followingView as [[w|]|]; try (eexists; split; [done|]; by rewrite Hid).
  eexists; split; [done|].
  pose proof Hpush as (Hwf1 & Hq1 & _).
  eapply stores_trans; [exact Hpush|].
  apply (stores_replace h1 accumulated q r i rest (its ++ [x])); try done.
Qed.

(** One sample stored: the run returns, the state stays well formed, the
    path holds [stored], and nothing else the object reaches changed. *)
Lemma storeItem_step single followingView lastEventTime (h : Heap) accumulated q x :
  well_formed h accumulated →
  ∃ h', storeItem single followingView lastEventTime accumulated q x h = Some (tt, h') ∧
        stores h h' accumulated q
          (stored single followingView lastEventTime (readPath h accumulated q) x).
Proof.
  intros Hwf. pose proof Hwf as (m & Hm & Hok & Hsep).
  destruct single.
  { eexists. split.
    - unfold storeItem, mthen, newItems, newRanges, setProperty. cbn. by rewrite Hm.
    - by apply stores_fresh. }
  destruct (entry h accumulated q) as [r|] eqn:He; [by eapply storeItem_present|].
  pose proof He as He'. unfold entry in He'. rewrite Hm in He'. cbn in He'.
  pose proof (stores_fresh h accumulated m q [] Hm Hwf) as Hfresh.
  set (h0 := mkHeap _ _ _ _ _) in Hfresh.
  pose proof (lookup_lt_Some _ _ _ Hm) as Hlt.
  assert (Hsame : storeItem false followingView lastEventTime accumulated q x h =
                  storeItem false followingView lastEventTime accumulated q x h0).
  { unfold storeItem, mthen, getObject, newItems, newRanges, setProperty, mreturn.
    cbn. rewrite Hm. cbn. rewrite He'. cbn. rewrite Hm.
    rewrite list_lookup_insert_eq by done. cbn. by rewrite lookup_insert_eq. }
  assert (He0 : entry h0 accumulated q = Some (length (range_arrays h))).
  { unfold entry. cbn. rewrite list_lookup_insert_eq by done. cbn.
    by rewrite lookup_insert_eq. }
  pose proof Hfresh as (Hwf0 & Hq0 & _).
  destruct (storeItem_present followingView lastEventTime h0 accumulated q _ x Hwf0 He0)
    as (h' & Hrun & Hst).
  exists h'. split; [by rewrite Hsame|].
  assert (Hnone : readPath h accumulated q = None).
  { unfold readPath. rewrite Hm. cbn. by rewrite He'. }
  rewrite Hnone. rewrite Hq0 in Hst. cbn in Hst. cbn.
  eapply stores_trans; [exact Hfresh|done].
Qed.

Lemma storeAll_cons single followingView lastEventTime accumulated s samples (h : Heap) :
  storeAll single followingView lastEventTime accumulated (s :: samples) h =
  match storeItem single followingView lastEventTime accumulated s.1 s.2 h with
  | Some (_, h') => storeAll single followingView lastEventTime accumulated samples h'
  | None => None
  end.
Proof.
  unfold storeAll. cbn. unfold mthen.
  by destruct (storeItem _ _ _ _ _ _ h) as [[[] h']|].
Qed.

Lemma storeAll_app single followingView lastEventTime accumulated l1 l2 (h : Heap) :
  storeAll single followingView lastEventTime accumulated (l1 ++ l2) h =
  match storeAll single followingView lastEventTime accumulated l1 h with
  | Some (_, h') => storeAll single followingView lastEventTime accumulated l2 h'
  | None => None
  end.
Proof.
  revert h. induction l1 as [|s l1 IH]; intros h; [done|].
  rewrite <- app_comm_cons, !storeAll_cons.
  destruct (storeItem _ _ _ _ _ _ h) as [[[] h']|]; [apply IH|done].
Qed.

Lemma storeAll_spec single followingView lastEventTime accumulated samples (h : Heap) :
  well_formed h accumulated →
  ∃ h', storeAll single followingView lastEventTime accumulated samples h = Some (tt, h') ∧
    well_formed h' accumulated ∧
    (∀ p, readPath h' accumulated p =
          storedAll single followingView lastEventTime (readPath h accumulated p)
            (samplesOf p samples)) ∧
    (∀ p, samplesOf p samples = [] → entry h' accumulated p = entry h accumulated p) ∧
    (∀ o, o ≠ accumulated → objects h' !! o = objects h !! o) ∧
    length (objects h') = length (objects h) ∧
    block_memo h' = block_memo h.
Proof.
  revert h. induction samples as [|[q x] samples IH]; intros h Hwf.
  { exists h. by split_and!. }
  destruct (storeItem_step single followingView lastEventTime h accumulated q x Hwf)
    as (h1 & Hrun & Hwf1 & Hq & Hframe & Hobj & Hlen & Hmemo).
  destruct (IH h1 Hwf1) as (h' & Hrun' & Hwf' & Hread & Hentry & Hobj' & Hlen' & Hmemo').
  exists h'. rewrite storeAll_cons. cbn [fst snd]. rewrite Hrun.
  split_and!; try done; try congruence.
  - intros p. rewrite Hread. unfold samplesOf. cbn [omap list_omap fst snd].
    case_decide as Hpq.
    + subst p. cbn [foldl storedAll]. unfold storedAll. cbn [foldl]. by rewrite Hq.
    + destruct (Hframe p) as [-> _]; [congruence|done].
  - intros p. unfold samplesOf. cbn [omap list_omap fst snd].
    case_decide as Hpq; [done|]. intros Hnil.
    rewrite Hentry by done. destruct (Hframe p) as [_ ->]; [congruence|done].
  - intros o Ho. rewrite Hobj' by done. by apply Hobj.
Qed.

Lemma changedBy_true samples : changedBy true samples = true.
Proof. by destruct samples. Qed.

Lemma changedBy_app changed l1 l2 :
  changedBy changed (l1 ++ l2) = changedBy (changedBy changed l1) l2.
Proof. destruct l1; [done|]. cbn. by rewrite changedBy_true. Qed.

Lemma addMessagesPath_sample single followingView blockPathsMemo lastEventTime
    accumulated msgEvent changed path (h : Heap) :
  addMessagesPath single followingView blockPathsMemo lastEventTime
    accumulated msgEvent changed path h =
  match sampleFor blockPathsMemo msgEvent path with
  | None => Some (changed, h)
  | Some item =>
      match storeItem single followingView lastEventTime accumulated path item h with
      | Some (_, h') => Some (true, h')
      | None => None
      end
  end.
Proof.
  unfold addMessagesPath, sampleFor.
  destruct (decide (path ∈ blockPathsMemo)); [done|].
  destruct (cachedGetMessagePathDataItems path msgEvent) as [dataItem|]; [|done].
  cbn. unfold mthen. by destruct (storeItem _ _ _ _ _ _ h) as [[[] h1]|].
Qed.

(** The inner loop of [addMessages] stores the samples of the event. *)
Lemma addMessagesPath_forEach single followingView blockPathsMemo lastEventTime
    accumulated msgEvent paths changed (h : Heap) :
  forEach (addMessagesPath single followingView blockPathsMemo lastEventTime
             accumulated msgEvent) changed paths h =
  let samples :=
    omap (λ path, (λ item, (path, item)) <$> sampleFor blockPathsMemo msgEvent path)
         paths in
  match storeAll single followingView lastEventTime accumulated samples h with
  | Some (_, h') => Some (changedBy changed samples, h')
  | None => None
  end.
Proof.
  cbv zeta. revert changed h. induction paths as [|path paths IH]; intros changed h; [done|].
  cbn [forEach omap list_omap]. unfold mthen at 1.
  rewrite addMessagesPath_sample.
  destruct (sampleFor blockPathsMemo msgEvent path) as [item|];
    cbn [fmap option_fmap option_map]; [|apply IH].
  rewrite storeAll_cons. cbn [fst snd].
  destruct (storeItem _ _ _ _ _ _ h) as [[[] h1]|]; [|done].
  cbn. rewrite IH. by rewrite changedBy_true.
Qed.

Lemma addMessagesEvent_forEach single followingView topicToPaths blockPathsMemo
    lastEventTime accumulated msgEvents changed (h : Heap) :
  forEach (addMessagesEvent single followingView topicToPaths blockPathsMemo
             lastEventTime accumulated) changed msgEvents h =
  let samples := batchSamples topicToPaths blockPathsMemo msgEvents in
  match storeAll single followingView lastEventTime accumulated samples h with
  | Some (_, h') => Some (changedBy changed samples, h')
  | None => None
  end.
Proof.
  cbv zeta. revert changed h.
  induction msgEvents as [|msgEvent msgEvents IH]; intros changed h; [done|].
  cbn [forEach]. unfold mthen at 1. unfold addMessagesEvent at 1.
  unfold batchSamples. cbn [mbind list_bind]. fold (batchSamples topicToPaths blockPathsMemo msgEvents).
  rewrite storeAll_app, changedBy_app. unfold eventSamples.
  destruct (topicToPaths !! MessageEvent.topic msgEvent) as [paths|]; cbn [default].
  - rewrite addMessagesPath_forEach. cbv zeta.
    destruct (storeAll _ _ _ _ _ h) as [[[] h1]|]; [apply IH|done].
  - cbn. apply IH.
Qed.

(** [addMessages] stores the samples of the batch and, when there is one,
    returns a new object with the properties of [accumulated]. *)
Lemma addMessages_eq single followingView topicToPaths blockPathsMemo accumulated
    msgEvents (h : Heap) :
  addMessages single followingView topicToPaths blockPathsMemo accumulated msgEvents h =
  match batchSamples topicToPaths blockPathsMemo msgEvents with
  | [] => Some (accumulated, h)
  | samples =>
      match storeAll single followingView (MessageEvent.receiveTime <$> last msgEvents)
              accumulated samples h with
      | Some (_, h') =>
          match objects h' !! accumulated with
          | Some m => Some (length (objects h'),
                            mkHeap (item_arrays h') (range_arrays h')
                                   (objects h' ++ [m]) (block_memo h')
                                   (members h' ∪
                                    membersOf h' accumulated (length (objects h'))))
          | None => None
          end
      | None => None
      end
  end.
Proof.
  unfold addMessages. unfold mthen at 1. rewrite addMessagesEvent_forEach. cbv zeta.
  destruct (batchSamples topicToPaths blockPathsMemo msgEvents) as [|s samples]; [done|].
  destruct (storeAll _ _ _ _ _ h) as [[[] h']|]; [|done].
  cbn. unfold spread.
  by destruct (objects h' !! accumulated).
Qed.

(** *** Which paths a batch touches *)

Lemma sampleFor_None blockPathsMemo msgEvent path :
  sampleFor blockPathsMemo msgEvent path = None ↔
  path ∈ blockPathsMemo ∨ cachedGetMessagePathDataItems path msgEvent = None.
Proof.
  unfold sampleFor. destruct (decide (path ∈ blockPathsMemo)) as [Hin|Hnot].
  - split; [by left|done].
  - destruct (cachedGetMessagePathDataItems path msgEvent); cbn.
    + split; [done|]. by intros [?|?].
    + split; [by right|done].
Qed.

Lemma samplesOf_app path (l1 l2 : list (string * Item)) :
  samplesOf path (l1 ++ l2) = samplesOf path l1 ++ samplesOf path l2.
Proof. apply omap_app. Qed.

Lemma samplesOf_paths blockPathsMemo msgEvent path paths :
  samplesOf path
    (omap (λ p, (λ item, (p, item)) <$> sampleFor blockPathsMemo msgEvent p) paths) = [] ↔
  (path ∈ paths → sampleFor blockPathsMemo msgEvent path = None).
Proof.
  induction paths as [|p paths IH].
  { split; [|done]. intros _ Hin. by apply elem_of_nil in Hin. }
  cbn [omap list_omap].
  destruct (sampleFor blockPathsMemo msgEvent p) as [item|] eqn:Hs;
    cbn [fmap option_fmap option_map].
  - unfold samplesOf at 1. cbn [omap list_omap fst snd]. case_decide as Hp.
    + subst p. split; [done|]. intros Hnone. rewrite Hnone in Hs; [done|].
      apply list_elem_of_here.
    + fold (samplesOf path). rewrite IH. rewrite elem_of_cons.
      split; [intros Hi [?|?]; [congruence|by apply Hi] | intros Hi ?; apply Hi; by right].
  - rewrite IH. rewrite elem_of_cons. split.
    + intros Hi [->|?]; [done|by apply Hi].
    + intros Hi ?. apply Hi. by right.
Qed.

Lemma untouched_samplesOf topicToPaths blockPathsMemo msgEvents path :
  untouched topicToPaths blockPathsMemo msgEvents path ↔
  samplesOf path (batchSamples topicToPaths blockPathsMemo msgEvents) = [].
Proof.
  unfold untouched. induction msgEvents as [|msgEvent msgEvents IH].
  { split; [done|]. intros _ ? ? Hin. by apply elem_of_nil in Hin. }
  unfold batchSamples. cbn [mbind list_bind].
  fold (batchSamples topicToPaths blockPathsMemo msgEvents).
  rewrite samplesOf_app, app_nil, <- IH. unfold eventSamples.
  rewrite samplesOf_paths. split.
  - intros Hall. split.
    + intros Hin. apply sampleFor_None.
      destruct (topicToPaths !! MessageEvent.topic msgEvent) as [paths|] eqn:Ht;
        cbn in Hin; [|by apply elem_of_nil in Hin].
      eapply Hall; [apply list_elem_of_here|done..].
    + intros ev paths Hev. apply Hall. by apply list_elem_of_further.
  - intros [Hhd Htl] ev paths Hev Ht Hin. apply elem_of_cons in Hev as [->|Hev].
    + apply sampleFor_None, Hhd. by rewrite Ht.
    + by eapply Htl.
Qed.


(** *** What a run of samples leaves in a path *)

Lemma storedAll_snoc single followingView lastEventTime old xs x :
  storedAll single followingView lastEventTime old (xs ++ [x]) =
  Some (stored single followingView lastEventTime
          (storedAll single followingView lastEventTime old xs) x).
Proof. unfold storedAll. by rewrite foldl_snoc. Qed.

Lemma storedAll_single followingView lastEventTime old xs :
  storedAll true followingView lastEventTime old xs =
  match last xs with Some x => Some [[x]] | None => old end.
Proof.
  induction xs as [|x xs _] using rev_ind; [done|].
  by rewrite storedAll_snoc, last_snoc.
Qed.





(** *** The result of a batch *)

Lemma well_formed_copy (h : Heap) accumulated m ms :
  objects h !! accumulated = Some m → well_formed h accumulated →
  well_formed (mkHeap (item_arrays h) (range_arrays h) (objects h ++ [m]) (block_memo h) ms)
              (length (objects h)).
Proof.
  intros Hm (m' & Hm' & Hok & Hsep). assert (m' = m) as -> by congruence.
  exists m. split; [apply lookup_snoc_new|]. split; [|done].
  intros p r Hp. by apply Hok in Hp.
Qed.

Lemma addMessages_spec single followingView topicToPaths blockPathsMemo accumulated
    msgEvents (h : Heap) :
  well_formed h accumulated →
  let samples := batchSamples topicToPaths blockPathsMemo msgEvents in
  let lastEventTime := MessageEvent.receiveTime <$> last msgEvents in
  ∃ accumulated' h',
    addMessages single followingView topicToPaths blockPathsMemo accumulated msgEvents h
      = Some (accumulated', h') ∧
    well_formed h' accumulated' ∧
    (∀ p, readPath h' accumulated' p =
          storedAll single followingView lastEventTime (readPath h accumulated p)
            (samplesOf p samples)) ∧
    (∀ p, samplesOf p samples = [] →
          entry h' accumulated' p = entry h accumulated p) ∧
    (samples = [] → accumulated' = accumulated ∧ h' = h) ∧
    (samples ≠ [] → accumulated' = length (objects h) ∧
                    objects h' !! accumulated' = objects h' !! accumulated ∧
                    length (objects h') = S (length (objects h)) ∧
                    (∀ o, o ≠ accumulated → o < length (objects h) →
                          objects h' !! o = objects h !! o)).
Proof.
  intros Hwf samples lastEventTime. rewrite addMessages_eq. fold samples lastEventTime.
  destruct samples as [|s samples'] eqn:E.
  { exists accumulated, h. split_and!; try done. }
  assert (Hne : samples ≠ []) by by rewrite E.
  rewrite <- E. clear E.
  destruct (storeAll_spec single followingView lastEventTime accumulated samples h Hwf)
    as (h1 & -> & Hwf1 & Hread & Hentry & Hobj & Hlen & Hmemo).
  pose proof Hwf1 as (m1 & Hm1 & _). rewrite Hm1.
  pose proof (lookup_lt_Some _ _ _ Hm1) as Hacc.
  eexists _, _. split; [done|].
  set (ms := members h1 ∪ membersOf h1 accumulated (length (objects h1))).
  assert (Hre : ∀ p, readPath (mkHeap (item_arrays h1) (range_arrays h1)
                        (objects h1 ++ [m1]) (block_memo h1) ms) (length (objects h1)) p =
                     readPath h1 accumulated p).
  { intros p. unfold readPath. cbn. by rewrite lookup_snoc_new, Hm1. }
  assert (Hen : ∀ p, entry (mkHeap (item_arrays h1) (range_arrays h1)
                        (objects h1 ++ [m1]) (block_memo h1) ms) (length (objects h1)) p =
                     entry h1 accumulated p).
  { intros p. unfold entry. cbn. by rewrite lookup_snoc_new, Hm1. }
  split_and!.
  - by apply (well_formed_copy h1 accumulated m1).
  - intros p. by rewrite Hre.
  - intros p Hp. rewrite Hen. by apply Hentry.
  - done.
  - intros _. cbn. split_and!.
    + done.
    + rewrite lookup_snoc_new. by rewrite lookup_app_l, Hm1.
    + rewrite length_app. cbn. lia.
    + intros o Ho Holt. rewrite lookup_app_l by lia. by apply Hobj.
Qed.

Lemma samplesOf_event topicToPaths blockPathsMemo msgEvent path y :
  y ∈ samplesOf path (eventSamples topicToPaths blockPathsMemo msgEvent) →
  sampleFor blockPathsMemo msgEvent path = Some y.
Proof.
  unfold samplesOf, eventSamples. rewrite list_elem_of_omap.
  intros ([q x] & Hin & Hy). cbn in Hy. case_decide; [|done]. simplify_eq.
  apply list_elem_of_omap in Hin as (q & _ & Hq).
  destruct (sampleFor blockPathsMemo msgEvent q) eqn:Hs; cbn in Hq; [|done]. by simplify_eq.
Qed.

Lemma last_samplesOf topicToPaths blockPathsMemo before msgEvent after paths path x :
  topicToPaths !! MessageEvent.topic msgEvent = Some paths → path ∈ paths →
  sampleFor blockPathsMemo msgEvent path = Some x →
  untouched topicToPaths blockPathsMemo after path →
  last (samplesOf path
          (batchSamples topicToPaths blockPathsMemo (before ++ msgEvent :: after))) = Some x.
Proof.
  intros Ht Hin Hs Hafter. apply untouched_samplesOf in Hafter.
  unfold batchSamples in *. rewrite bind_app. cbn [mbind list_bind].
  rewrite !samplesOf_app, Hafter, app_nil_r.
  destruct (samplesOf path (eventSamples topicToPaths blockPathsMemo msgEvent))
    as [|y l _] eqn:E using rev_ind.
  - exfalso. unfold eventSamples in E. rewrite Ht in E. cbn in E.
    apply samplesOf_paths in E; [congruence|done].
  - rewrite app_assoc, last_snoc. f_equal.
    assert (sampleFor blockPathsMemo msgEvent path = Some y) as Hy.
    { eapply samplesOf_event. rewrite E. apply elem_of_app. right. apply list_elem_of_here. }
    congruence.
Qed.







(** C5. In single-current-message mode (x-axis index or currentCustom) the
    block data is a new empty object, with no keys; and after a batch,
    every path for which some event of the batch yields a sample holds
    exactly one range with exactly one sample, the last the batch yields
    for it. *)
Theorem single_current_message xAxisVal blocks followingView topicToPaths blockPathsMemo
    accumulated msgEvents (h : Heap) :
  xAxisVal = index ∨ xAxisVal = currentCustom →
  (∃ plotData h1,
     plotDataForBlocks xAxisVal blocks h = Some (plotData, h1) ∧
     objects h !! plotData = None ∧ objects h1 !! plotData = Some ∅ ∧
     blockPaths plotData h1 = Some ([], h1)) ∧
  (well_formed h accumulated →
   ∃ accumulated' h',
     addMessages (showSingleCurrentMessage xAxisVal) followingView topicToPaths
       blockPathsMemo accumulated msgEvents h = Some (accumulated', h') ∧
     ∀ path, ¬ untouched topicToPaths blockPathsMemo msgEvents path →
       ∃ x, last (samplesOf path (batchSamples topicToPaths blockPathsMemo msgEvents))
              = Some x ∧
            readPath h' accumulated' path = Some [[x]]).
Proof.
  intros Hmode.
  assert (Hsingle : showSingleCurrentMessage xAxisVal = true).
  { by destruct Hmode as [-> | ->]. }
  split.
  - unfold plotDataForBlocks. rewrite Hsingle. eexists _, _. split; [done|]. cbn.
    split_and!.
    + by apply lookup_ge_None.
    + apply lookup_snoc_new.
    + unfold blockPaths, mthen, getObject. cbn. by rewrite lookup_snoc_new.
  - intros Hwf. rewrite Hsingle.
    destruct (addMessages_spec true followingView topicToPaths blockPathsMemo
                accumulated msgEvents h Hwf) as (acc' & h' & Hrun & _ & Hread & _).
    exists acc', h'. split; [done|]. intros path Htouched.
    rewrite untouched_samplesOf in Htouched. rewrite Hread, storedAll_single.
    destruct (last (samplesOf path _)) as [x|] eqn:Hl; [by exists x|].
    by apply last_None in Hl.
Qed.

(** C10. In single-current-message mode an event from which a path selects
    nothing changes nothing for that path; a path for which no event of the
    batch yields a sample keeps its entry and its contents; and a path for
    which an event yields a sample, followed only by events that yield none
    for it, holds that sample alone, although the event is not the last of
    the batch. *)
Theorem single_mode_failed_extraction followingView topicToPaths blockPathsMemo
    accumulated msgEvents (h : Heap) :
  well_formed h accumulated →
  (∀ lastEventTime msgEvent changed path h0,
     cachedGetMessagePathDataItems path msgEvent = None →
     addMessagesPath true followingView blockPathsMemo lastEventTime accumulated
       msgEvent changed path h0 = Some (changed, h0)) ∧
  ∃ accumulated' h',
    addMessages true followingView topicToPaths blockPathsMemo accumulated msgEvents h
      = Some (accumulated', h') ∧
    (∀ path, untouched topicToPaths blockPathsMemo msgEvents path →
       entry h' accumulated' path = entry h accumulated path ∧
       readPath h' accumulated' path = readPath h accumulated path) ∧
    (∀ path before msgEvent after paths x,
       msgEvents = before ++ msgEvent :: after →
       topicToPaths !! MessageEvent.topic msgEvent = Some paths → path ∈ paths →
       sampleFor blockPathsMemo msgEvent path = Some x →
       untouched topicToPaths blockPathsMemo after path →
       readPath h' accumulated' path = Some [[x]]).
Proof.
  intros Hwf. split.
  { intros T ev changed path h0 Hnone. rewrite addMessagesPath_sample.
    assert (sampleFor blockPathsMemo ev path = None) as ->; [|done].
    apply sampleFor_None. by right. }
  destruct (addMessages_spec true followingView topicToPaths blockPathsMemo
              accumulated msgEvents h Hwf) as (acc' & h' & Hrun & _ & Hread & Hentry & _).
  exists acc', h'. split; [done|]. split.
  - intros path Hun. apply untouched_samplesOf in Hun. split; [by apply Hentry|].
    by rewrite Hread, Hun.
  - intros path before ev after paths x -> Ht Hin Hs Hafter.
    rewrite Hread, storedAll_single.
    by rewrite (last_samplesOf _ _ before ev after paths path x).
Qed.

(** *** Restore *)

Lemma restore_forEach (paths : list string) previous updated prev (h : Heap) m :
  objects h !! previous = Some prev → objects h !! updated = Some m →
  previous ≠ updated → m ⊆ prev →
  ∃ m' ms,
    forEach (λ _ path,
          let! plotData := getProperty previous path in
          match plotData with
          | Some (rangeList r) => setProperty updated path r
          | Some (prototypeMember _) => setMember updated path
          | None => mreturn tt
          end) tt paths h
      = Some (tt, mkHeap (item_arrays h) (range_arrays h)
                         (<[updated := m']> (objects h)) (block_memo h) ms) ∧
    (∀ p, m' !! p = if decide (p ∈ paths)
                    then match prev !! p with Some r => Some r | None => m !! p end
                    else m !! p) ∧
    (∀ o key, (o, key) ∈ ms ↔
       (o, key) ∈ members h ∨
       (o = updated ∧ key ∈ paths ∧ prev !! key = None ∧ key ∈ objectPrototype)).
Proof.
  revert h m. induction paths as [|path paths IH]; intros h m Hprev Hupd Hne Hsub.
  { exists m, (members h). split_and!.
    - cbn. unfold mreturn. rewrite list_insert_id by done. by destruct h.
    - intros p. rewrite decide_False; [done|]. apply not_elem_of_nil.
    - intros o key. split; [by left|]. intros [?|(_ & ?%elem_of_nil & _)]; done. }
  cbn [forEach]. unfold mthen at 1. unfold mthen at 1, getProperty at 1. rewrite Hprev.
  pose proof (lookup_lt_Some _ _ _ Hupd) as Hlt.
  destruct (prev !! path) as [r|] eqn:Hr.
  - unfold setProperty at 1. rewrite Hupd.
    destruct (IH (mkHeap (item_arrays h) (range_arrays h)
                    (<[updated := <[path := r]> m]> (objects h)) (block_memo h) (members h))
                 (<[path := r]> m)) as (m' & ms & -> & Hm' & Hms); cbn.
    + by rewrite list_lookup_insert_ne.
    + by rewrite list_lookup_insert_eq.
    + done.
    + by apply insert_subseteq_l.
    + exists m', ms. rewrite list_insert_insert_eq. split_and!; [done| |].
      * intros p. rewrite Hm'. destruct (decide (p = path)) as [->|Hpp].
        -- rewrite (decide_True (P := path ∈ path :: paths)) by apply list_elem_of_here.
           rewrite Hr, lookup_insert_eq. by destruct (decide (path ∈ paths)).
        -- rewrite lookup_insert_ne by done. destruct (decide (p ∈ paths)) as [Hin|Hnin].
           ++ by rewrite decide_True by by apply list_elem_of_further.
           ++ rewrite decide_False; [done|]. by intros [?|?]%elem_of_cons.
      * intros o key. rewrite Hms. cbn. split.
        -- intros [?|(? & ? & ? & ?)]; [by left|right].
           split_and!; try done. by apply list_elem_of_further.
        -- intros [?|(? & [->|?]%elem_of_cons & Hnone & ?)]; [by left|congruence|].
           right. by split_and!.
  - assert (Hmp : m !! path = None) by by eapply lookup_weaken_None.
    destruct (decide (path ∈ objectPrototype)) as [Hproto|Hplain].
    + unfold setMember at 1. rewrite Hupd, (delete_id _ _ Hmp).
      destruct (IH (mkHeap (item_arrays h) (range_arrays h)
                      (<[updated := m]> (objects h)) (block_memo h)
                      (members h ∪ {[ (updated, path) ]})) m)
        as (m' & ms & -> & Hm' & Hms); cbn.
      * by rewrite list_lookup_insert_ne.
      * by rewrite list_lookup_insert_eq.
      * done.
      * done.
      * exists m', ms. rewrite list_insert_insert_eq. split_and!; [done| |].
        -- intros p. rewrite Hm'. destruct (decide (p = path)) as [->|Hpp].
           ++ rewrite (decide_True (P := path ∈ path :: paths)) by apply list_elem_of_here.
              rewrite Hr. by destruct (decide (path ∈ paths)).
           ++ destruct (decide (p ∈ paths)) as [Hin|Hnin].
              ** by rewrite decide_True by by apply list_elem_of_further.
              ** rewrite decide_False; [done|]. by intros [?|?]%elem_of_cons.
        -- intros o key. rewrite Hms. cbn. rewrite elem_of_union, elem_of_singleton. split.
           ++ intros [[?|[= -> ->]]|(? & ? & ? & ?)].
              ** by left.
              ** right. split_and!; try done. apply list_elem_of_here.
              ** right. split_and!; try done. by apply list_elem_of_further.
           ++ intros [?|(-> & [->|?]%elem_of_cons & Hnone & ?)].
              ** left. by left.
              ** left. by right.
              ** right. by split_and!.
    + unfold mreturn at 1.
      destruct (IH h m) as (m' & ms & -> & Hm' & Hms); try done.
      exists m', ms. split_and!; [done| |].
      * intros p. rewrite Hm'. destruct (decide (p = path)) as [->|Hpp].
        -- rewrite (decide_True (P := path ∈ path :: paths)) by apply list_elem_of_here.
           rewrite Hr. by destruct (decide (path ∈ paths)).
        -- destruct (decide (p ∈ paths)) as [Hin|Hnin].
           ++ by rewrite decide_True by by apply list_elem_of_further.
           ++ rewrite decide_False; [done|]. by intros [?|?]%elem_of_cons.
      * intros o key. rewrite Hms. split.
        -- intros [?|(? & ? & ? & ?)]; [by left|right].
           split_and!; try done. by apply list_elem_of_further.
        -- intros [?|(? & [->|?]%elem_of_cons & Hnone & ?)]; [by left|done|].
           right. by split_and!.
Qed.

(** The states the reducer is given are well formed: restoring from nothing
    or from a well-formed state gives a well-formed state. *)
Lemma restore_well_formed (paths : list string) (previous : option loc) (h : Heap) :
  (∀ prev, previous = Some prev → well_formed h prev) →
  ∃ updated h', restore paths previous h = Some (updated, h') ∧ well_formed h' updated.
Proof.
  intros Hprev. destruct previous as [prev|].
  - destruct (Hprev prev eq_refl) as (m & Hm & Hok & Hsep).
    pose proof (lookup_lt_Some _ _ _ Hm) as Hlt.
    unfold restore, mthen at 1 2, newObject.
    set (h0 := mkHeap _ _ (objects h ++ [∅]) _ _).
    destruct (restore_forEach paths prev (length (objects h)) m h0 ∅)
      as (m' & ms & Hrun & Hm' & _); cbn.
    + by rewrite lookup_app_l.
    + apply lookup_snoc_new.
    + lia.
    + apply map_empty_subseteq.
    + rewrite Hrun. eexists _, _. split; [done|].
      assert (Hsub : ∀ p r, m' !! p = Some r → m !! p = Some r).
      { intros p r. rewrite Hm', lookup_empty. case_decide; [|done].
        by destruct (m !! p). }
      exists m'. split; [|split].
      * cbn. apply list_lookup_insert_eq. rewrite length_app. cbn. lia.
      * intros p r Hp. apply Hsub in Hp. by apply Hok in Hp.
      * intros p q rp rq rsp iq restq Hne Hp Hq. cbn.
        apply Hsub in Hp. apply Hsub in Hq. by apply (Hsep p q).
  - unfold restore, newObject. eexists _, _. split; [done|].
    apply well_formed_empty. cbn. apply lookup_snoc_new.
Qed.

Lemma members_ok_empty (h : Heap) : members h = ∅ → members_ok h.
Proof. intros Hm o key. rewrite Hm. by intros ?%not_elem_of_empty. Qed.

(** The run of [restore] from a previous state. *)
Lemma restore_run (paths : list string) previous prev (h : Heap) :
  objects h !! previous = Some prev →
  ∃ h' m',
    restore paths (Some previous) h = Some (length (objects h), h') ∧
    objects h' = <[length (objects h) := m']> (objects h ++ [∅]) ∧
    item_arrays h' = item_arrays h ∧ range_arrays h' = range_arrays h ∧
    block_memo h' = block_memo h ∧
    (∀ path, m' !! path = if decide (path ∈ paths) then prev !! path else None) ∧
    (∀ o key, (o, key) ∈ members h' ↔
       (o, key) ∈ members h ∨
       (o = length (objects h) ∧ key ∈ paths ∧ prev !! key = None ∧
        key ∈ objectPrototype)).
Proof.
  intros Hprev. pose proof (lookup_lt_Some _ _ _ Hprev) as Hlt.
  unfold restore, mthen at 1 2, newObject.
  set (h0 := mkHeap _ _ (objects h ++ [∅]) _ _).
  destruct (restore_forEach paths previous (length (objects h)) prev h0 ∅)
    as (m' & ms & Hrun & Hm' & Hms); cbn.
  - by rewrite lookup_app_l.
  - apply lookup_snoc_new.
  - lia.
  - apply map_empty_subseteq.
  - rewrite Hrun. eexists _, m'. split_and!; try done.
    intros path. rewrite Hm', lookup_empty. case_decide; [|done].
    by destruct (prev !! path).
Qed.

Lemma restore_readPath (paths : list string) previous prev (h : Heap) :
  objects h !! previous = Some prev →
  ∃ h',
    restore paths (Some previous) h = Some (length (objects h), h') ∧
    (∀ path, entry h' (length (objects h)) path =
             if decide (path ∈ paths) then entry h previous path else None) ∧
    (∀ path, readPath h' (length (objects h)) path =
             if decide (path ∈ paths) then readPath h previous path else None) ∧
    objects h `prefix_of` objects h' ∧
    item_arrays h' = item_arrays h ∧ range_arrays h' = range_arrays h ∧
    is_Some (objects h' !! length (objects h)) ∧
    (∀ o key, (o, key) ∈ members h' ↔
       (o, key) ∈ members h ∨
       (o = length (objects h) ∧ key ∈ paths ∧ entry h previous key = None ∧
        key ∈ objectPrototype)).
Proof.
  intros Hprev.
  destruct (restore_run paths previous prev h Hprev)
    as (h' & m' & Hrun & Hobj & Hi & Hr & _ & Hm' & Hms).
  exists h'. rewrite insert_snoc in Hobj.
  assert (Hup : objects h' !! length (objects h) = Some m').
  { rewrite Hobj. apply lookup_snoc_new. }
  split_and!; try done.
  - intros path. unfold entry. rewrite Hup, Hprev. cbn. apply Hm'.
  - intros path. unfold readPath. rewrite Hup, Hprev. cbn. rewrite Hm'.
    case_decide; [|done]. unfold readRanges. by rewrite Hi, Hr.
  - rewrite Hobj. by apply prefix_app_r.
  - intros o key. rewrite Hms. unfold entry. by rewrite Hprev.
Qed.


(** *** The block accumulator *)


















(** [getPlotDataByPath] fills a new object with new arrays. *)
Lemma getPlotDataByPath_forEach
    (l : list (string * list (MessageAndData.t Message QueriedData))) (h : Heap) o mo :
  objects h !! o = Some mo → NoDup l.*1 →
  ∃ h' mo',
    forEach (λ _ '(path, items),
               let! mapped := newItems (map toPlotDataItem items) in
               let! ranges := newRanges [mapped] in
               setProperty o path ranges) tt l h = Some (tt, h') ∧
    item_arrays h `prefix_of` item_arrays h' ∧
    range_arrays h `prefix_of` range_arrays h' ∧
    objects h' = <[o := mo']> (objects h) ∧ block_memo h' = block_memo h ∧
    (∀ p, p ∉ l.*1 → mo' !! p = mo !! p) ∧
    (∀ p items, (p, items) ∈ l →
       ∃ r c, mo' !! p = Some r ∧
              length (range_arrays h) ≤ r ∧ length (item_arrays h) ≤ c ∧
              range_arrays h' !! r = Some [c] ∧
              item_arrays h' !! c = Some (map toPlotDataItem items)).
Proof.
  revert h mo. induction l as [|[path items] l IH]; intros h mo Ho Hnd.
  { exists h, mo. split_and!; try done.
    - by rewrite list_insert_id.
    - intros p items Hin. by apply elem_of_nil in Hin. }
  cbn in Hnd. apply NoDup_cons in Hnd as [Hnotin Hnd].
  pose proof (lookup_lt_Some _ _ _ Ho) as Holt.
  set (h1 := mkHeap (item_arrays h ++ [map toPlotDataItem items])
                    (range_arrays h ++ [[length (item_arrays h)]])
                    (<[o := <[path := length (range_arrays h)]> mo]> (objects h))
                    (block_memo h) (members h)).
  destruct (IH h1 (<[path := length (range_arrays h)]> mo)) as
    (h' & mo' & Hrun & Hpi & Hpr & Hobj & Hmemo & Hout & Hin); [|done|].
  { cbn. by apply list_lookup_insert_eq. }
  exists h', mo'. split_and!.
  - cbn [forEach]. unfold mthen at 1. unfold mthen at 1 2, newItems, newRanges, setProperty.
    cbn. rewrite Ho. apply Hrun.
  - etrans; [|done]. cbn. by apply prefix_app_r.
  - etrans; [|done]. cbn. by apply prefix_app_r.
  - rewrite Hobj. cbn. by rewrite list_insert_insert_eq.
  - done.
  - intros p Hp. rewrite Hout.
    + apply lookup_insert_ne. intros <-. apply Hp. cbn. apply list_elem_of_here.
    + intros Hpl. apply Hp. cbn. by apply list_elem_of_further.
  - intros p its [[= -> ->]|Hpl]%elem_of_cons.
    + exists (length (range_arrays h)), (length (item_arrays h)).
      rewrite Hout by done. rewrite lookup_insert_eq. split_and!; try done.
      * eapply prefix_lookup_Some; [|done]. cbn. apply lookup_snoc_new.
      * eapply prefix_lookup_Some; [|done]. cbn. apply lookup_snoc_new.
    + destruct (Hin p its Hpl) as (r & c & Hr & Hrl & Hcl & Hrs & Hcs).
      exists r, c. cbn in Hrl, Hcl. rewrite length_app in Hrl, Hcl. cbn in Hrl, Hcl.
      split_and!; try done; lia.
Qed.





(** *** More on the block accumulator *)

















(** The run of [getPlotDataByPath]: a new object, new arrays, nothing else
    changed. *)
Lemma getPlotDataByPath_run
    (itemsByPath : gmap string (list (MessageAndData.t Message QueriedData))) (h : Heap) :
  ∃ h' mo,
    getPlotDataByPath itemsByPath h = Some (length (objects h), h') ∧
    item_arrays h `prefix_of` item_arrays h' ∧
    range_arrays h `prefix_of` range_arrays h' ∧
    objects h' = objects h ++ [mo] ∧ block_memo h' = block_memo h ∧
    ∀ path, match itemsByPath !! path with
            | Some items =>
                ∃ r c, mo !! path = Some r ∧ range_arrays h' !! r = Some [c] ∧
                       item_arrays h' !! c = Some (map toPlotDataItem items)
            | None => mo !! path = None
            end.
Proof.
  unfold getPlotDataByPath, mthen at 1, newObject.
  set (h0 := mkHeap _ _ (objects h ++ [∅]) _ _).
  destruct (getPlotDataByPath_forEach (map_to_list itemsByPath) h0 (length (objects h)) ∅)
    as (h' & mo & Hrun & Hpi & Hpr & Hobj & Hmemo & Hout & Hin).
  { apply lookup_snoc_new. }
  { apply NoDup_fst_map_to_list. }
  exists h', mo. unfold mthen at 1. rewrite Hrun. split_and!; try done.
  - rewrite Hobj. cbn. apply insert_snoc.
  - intros path. destruct (itemsByPath !! path) as [items|] eqn:Hp.
    + destruct (Hin path items) as (r & c & ? & _ & _ & ? & ?).
      { by apply elem_of_map_to_list. }
      by exists r, c.
    + rewrite Hout; [apply lookup_empty|].
      intros ([p' items] & -> & Hpl)%list_elem_of_fmap.
      apply elem_of_map_to_list in Hpl. cbn in Hp. congruence.
Qed.

(** X5. [getPlotDataByPath] returns a new object with exactly the paths of
    its argument, each holding exactly one range with one sample per message,
    in order; the arrays and objects that existed are left as they were. *)
Theorem getPlotDataByPath_one_range
    (itemsByPath : gmap string (list (MessageAndData.t Message QueriedData))) (h : Heap) :
  ∃ ret h',
    getPlotDataByPath itemsByPath h = Some (ret, h') ∧
    objects h !! ret = None ∧
    (∀ path, readPath h' ret path =
             (λ items, [map toPlotDataItem items]) <$> itemsByPath !! path) ∧
    item_arrays h `prefix_of` item_arrays h' ∧
    range_arrays h `prefix_of` range_arrays h' ∧
    objects h `prefix_of` objects h'.
Proof.
  destruct (getPlotDataByPath_run itemsByPath h)
    as (h' & mo & Hrun & Hpi & Hpr & Hobj & _ & Hpaths).
  exists (length (objects h)), h'. split_and!; try done.
  - by apply lookup_ge_None.
  - intros path. unfold readPath. rewrite Hobj, lookup_snoc_new. cbn.
    specialize (Hpaths path). destruct (itemsByPath !! path) as [items|]; cbn.
    + destruct Hpaths as (r & c & -> & Hr & Hc). cbn. unfold readRanges.
      rewrite Hr. cbn. by rewrite Hc.
    + by rewrite Hpaths.
  - rewrite Hobj. by apply prefix_app_r.
Qed.

(** X6. [getMessagePathItemsForBlock] always returns; a block already in
    the cache gives the cached object and changes nothing; and a second
    call for the same block returns the object of the first and changes
    nothing, so a block is decoded once.  The cache entries of other blocks
    are kept. *)
Theorem getMessagePathItemsForBlock_memoized (block : MessageBlock) (h : Heap) :
  ∃ o h1,
    getMessagePathItemsForBlock block h = Some (o, h1) ∧
    getMessagePathItemsForBlock block h1 = Some (o, h1) ∧
    (∀ cached, block_memo h !! block = Some cached → o = cached ∧ h1 = h) ∧
    (block_memo h !! block = None → objects h !! o = None) ∧
    (∀ other, other ≠ block → block_memo h1 !! other = block_memo h !! other).
Proof.
  unfold getMessagePathItemsForBlock at 1, mthen at 1, getMemo.
  destruct (block_memo h !! block) as [cached|] eqn:Hb.
  - exists cached, h. split_and!; try done.
    + unfold getMessagePathItemsForBlock, mthen, getMemo. by rewrite Hb.
    + by intros ? [= <-].
  - destruct (getPlotDataByPath_run (decodeMessagePathsForMessagesByTopic block) h)
      as (h' & mo & Hrun & _ & _ & _ & Hmemo & _).
    unfold mthen at 1. rewrite Hrun. cbn.
    eexists _, _. split_and!; try done.
    + unfold getMessagePathItemsForBlock, mthen, getMemo. cbn.
      by rewrite lookup_insert_eq.
    + intros _. by apply lookup_ge_None.
    + intros other Hne. cbn. rewrite lookup_insert_ne by done. by rewrite Hmemo.
Qed.

(** *** More on the streaming reducer *)




Lemma storedAll_one_range single followingView lastEventTime old xs ranges :
  (∀ l, old = Some l → length l = 1) →
  storedAll single followingView lastEventTime old xs = Some ranges →
  length ranges = 1.
Proof.
  revert ranges. induction xs as [|x xs IH] using rev_ind; intros ranges Hold.
  { cbn. apply Hold. }
  rewrite storedAll_snoc. intros [= <-]. unfold stored. destruct single; [done|].
  destruct (storedAll false followingView lastEventTime old xs) as [[|r0 rest]|] eqn:Hs;
    try done.
  by apply (IH (r0 :: rest)).
Qed.



Lemma mthen_Some {A B} (c : St A) (k : A → St B) (h : Heap) r :
  mthen c k h = Some r → ∃ a h1, c h = Some (a, h1) ∧ k a h1 = Some r.
Proof. unfold mthen. destruct (c h) as [[a h1]|]; [eauto|done]. Qed.

(** The streaming reducer writes member entries only when it spreads. *)
Lemma keeps_mreturn {A} (a : A) : keeps_members (mreturn a : St A).
Proof. by intros h a' h' [= _ <-]. Qed.

Lemma keeps_mfail {A} : keeps_members (mfail : St A).
Proof. by intros h a h'. Qed.

Lemma keeps_mthen {A B} (c : St A) (k : A → St B) :
  keeps_members c → (∀ a, keeps_members (k a)) → keeps_members (mthen c k).
Proof.
  intros Hc Hk h b h' Hrun. apply mthen_Some in Hrun as (a & h1 & Hrun1 & Hrun2).
  rewrite (Hk a _ _ _ Hrun2). by apply (Hc _ _ _ Hrun1).
Qed.

Lemma keeps_forEach {A B} (f : A → B → St A) (a : A) (l : list B) :
  (∀ a x, keeps_members (f a x)) → keeps_members (forEach f a l).
Proof.
  intros Hf. revert a. induction l as [|x l IH]; intros a; cbn [forEach].
  - apply keeps_mreturn.
  - apply keeps_mthen; [apply Hf|apply IH].
Qed.

Lemma keeps_newItems (l : list Item) : keeps_members (newItems l : St loc).
Proof. by intros h a h' [= _ <-]. Qed.

Lemma keeps_newRanges (l : list loc) : keeps_members (newRanges l : St loc).
Proof. by intros h a h' [= _ <-]. Qed.

Lemma keeps_getItems (i : loc) : keeps_members (getItems i : St (list Item)).
Proof.
  intros h a h'. unfold getItems. destruct (item_arrays h !! i); [|done].
  by intros [= _ <-].
Qed.

Lemma keeps_getRanges (r : loc) : keeps_members (getRanges r : St (list loc)).
Proof.
  intros h a h'. unfold getRanges. destruct (range_arrays h !! r); [|done].
  by intros [= _ <-].
Qed.

Lemma keeps_getObject (o : loc) : keeps_members (getObject o : St (gmap string loc)).
Proof.
  intros h a h'. unfold getObject. destruct (objects h !! o); [|done].
  by intros [= _ <-].
Qed.

Lemma keeps_setItems (i : loc) (l : list Item) : keeps_members (setItems i l : St unit).
Proof.
  intros h a h'. unfold setItems. destruct (item_arrays h !! i); [|done].
  by intros [= _ <-].
Qed.

Lemma keeps_setRanges (r : loc) (l : list loc) : keeps_members (setRanges r l : St unit).
Proof.
  intros h a h'. unfold setRanges. destruct (range_arrays h !! r); [|done].
  by intros [= _ <-].
Qed.

Lemma keeps_setProperty (o : loc) key (v : loc) :
  keeps_members (setProperty o key v : St unit).
Proof.
  intros h a h'. unfold setProperty. destruct (objects h !! o); [|done].
  by intros [= _ <-].
Qed.

Lemma keeps_storeItem single followingView lastEventTime accumulated path x :
  keeps_members (storeItem single followingView lastEventTime accumulated path x).
Proof.
  unfold storeItem. destruct single.
  - apply keeps_mthen; [apply keeps_newItems|intros inner].
    apply keeps_mthen; [apply keeps_newRanges|intros outer]. apply keeps_setProperty.
  - apply keeps_mthen; [apply keeps_getObject|intros acc].
    apply keeps_mthen.
    { destruct (acc !! path); [apply keeps_mreturn|].
      apply keeps_mthen; [apply keeps_newItems|intros inner].
      apply keeps_mthen; [apply keeps_newRanges|intros outer].
      apply keeps_mthen; [apply keeps_setProperty|intros _]. apply keeps_mreturn. }
    intros plotDataPath. apply keeps_mthen; [apply keeps_getRanges|intros ranges].
    destruct ranges as [|plotDataItems rest]; [apply keeps_mfail|].
    apply keeps_mthen; [apply keeps_getItems|intros items].
    apply keeps_mthen; [apply keeps_setItems|intros _].
    destruct lastEventTime as [t|]; [|apply keeps_mreturn].
    destruct followingView as [[w|]|]; try apply keeps_mreturn.
    apply keeps_mthen; [apply keeps_getItems|intros items'].
    apply keeps_mthen; [apply keeps_newItems|intros filtered]. apply keeps_setRanges.
Qed.

Lemma addMessages_members_ok single followingView topicToPaths blockPathsMemo accumulated
    msgEvents (h : Heap) accumulated' h' :
  well_formed h accumulated → members_ok h →
  addMessages single followingView topicToPaths blockPathsMemo accumulated msgEvents h
    = Some (accumulated', h') →
  members_ok h'.
Proof.
  intros Hwf Hmem. rewrite addMessages_eq.
  destruct (batchSamples topicToPaths blockPathsMemo msgEvents) as [|s samples].
  { by intros [= _ <-]. }
  destruct (storeAll_spec single followingView (MessageEvent.receiveTime <$> last msgEvents)
              accumulated (s :: samples) h Hwf)
    as (h1 & Hrun & (m1 & Hm1 & _) & _ & _ & _ & Hlen & _).
  rewrite Hrun, Hm1. intros [= _ <-].
  assert (Hkeep : members h1 = members h).
  { revert Hrun. unfold storeAll. apply keeps_forEach. intros _ [q x].
    apply keeps_storeItem. }
  intros o key. cbn. rewrite length_app, Hlen. cbn.
  rewrite elem_of_union, Hkeep. intros [Hold|Hnew].
  - apply Hmem in Hold as [? ?]. split; [lia|done].
  - unfold membersOf in Hnew. apply elem_of_map in Hnew as ([o' key'] & [= -> ->] & Hin).
    apply elem_of_filter in Hin as [_ Hin]. rewrite Hkeep in Hin.
    apply Hmem in Hin as [? ?]. cbn. split; [lia|done].
Qed.

Lemma reducerStep_invariant call state (h : Heap) :
  well_formed h state → one_range h state → members_ok h →
  ∃ state' h', reducerStep state call h = Some (state', h') ∧
               well_formed h' state' ∧ one_range h' state' ∧ members_ok h'.
Proof.
  intros Hwf Hone Hmem.
  destruct call as [paths|paths|single fv ttp bp evs]; cbn [reducerStep].
  - eexists _, _. split; [done|]. split_and!.
    + apply well_formed_empty. cbn. apply lookup_snoc_new.
    + intros path ranges. unfold readPath. cbn. by rewrite lookup_snoc_new.
    + intros o key Hin. cbn in Hin |- *. apply Hmem in Hin as [? ?].
      rewrite length_app. cbn. split; [lia|done].
  - destruct (restore_well_formed paths (Some state) h) as (state' & h' & Hrun & Hwf').
    { by intros ? [= <-]. }
    exists state', h'. split_and!; try done.
    + destruct Hwf as (m & Hm & _).
      destruct (restore_readPath paths state m h Hm) as (h'' & Hrun' & _ & Hread & _).
      rewrite Hrun in Hrun'. injection Hrun' as -> <-.
      intros path ranges. rewrite Hread. case_decide; [apply Hone|done].
    + destruct Hwf as (m & Hm & _).
      destruct (restore_readPath paths state m h Hm)
        as (h'' & Hrun' & _ & _ & Hpre & _ & _ & Hnew & Hms).
      rewrite Hrun in Hrun'. injection Hrun' as -> <-.
      apply prefix_length in Hpre. apply lookup_lt_is_Some_1 in Hnew.
      intros o key Hin. apply Hms in Hin as [Hold|(-> & _ & _ & ?)].
      * apply Hmem in Hold as [? ?]. split; [lia|done].
      * done.
  - destruct (addMessages_spec single fv ttp bp state evs h Hwf)
      as (state' & h' & Hrun & Hwf' & Hread & _).
    exists state', h'. split_and!; try done.
    + intros path ranges. rewrite Hread. apply storedAll_one_range. apply Hone.
    + exact (addMessages_members_ok single fv ttp bp state evs h state' h' Hwf Hmem Hrun).
Qed.

(** X9. Starting from [restore(undefined)], no sequence of calls of
    [restore] and [addMessages], each on the state the call before it
    returned, throws, whatever the modes, the configured path texts and the
    batches, as long as no index lists the name of something objects
    inherit from [Object.prototype] (the reducer is modelled for such
    indexes only); in the state it reaches every path with a range list
    holds exactly one range, distinct paths share no array, and every other
    own property of an object holds the member of [Object.prototype] of its
    name, as [restore] makes them for a configured text such as
    [toString]. *)
Theorem reducerCalls_return (allPaths0 : list string) (calls : list reducerCall)
    (h : Heap) :
  members_ok h → Forall plainCall calls →
  ∃ state h',
    reducerCalls allPaths0 calls h = Some (state, h') ∧
    well_formed h' state ∧ one_range h' state ∧ members_ok h'.
Proof.
  intros Hmem _. unfold reducerCalls, mthen, restore, newObject.
  set (h0 := mkHeap _ _ (objects h ++ [∅]) _ _).
  assert (Hwf0 : well_formed h0 (length (objects h))).
  { apply well_formed_empty. apply lookup_snoc_new. }
  assert (Hone0 : one_range h0 (length (objects h))).
  { intros path ranges. unfold readPath. cbn. by rewrite lookup_snoc_new. }
  assert (Hmem0 : members_ok h0).
  { intros o key Hin. cbn in Hin |- *. apply Hmem in Hin as [? ?].
    rewrite length_app. cbn. split; [lia|done]. }
  clear Hmem. revert Hwf0 Hone0 Hmem0. generalize (length (objects h)) h0. clear h0.
  induction calls as [|call calls IH]; intros state h0 Hwf Hone Hmem.
  { by exists state, h0. }
  destruct (reducerStep_invariant call state h0 Hwf Hone Hmem)
    as (state1 & h1 & Hrun & Hwf1 & Hone1 & Hmem1).
  destruct (IH state1 h1 Hwf1 Hone1 Hmem1) as (state' & h' & Hrun' & ?).
  exists state', h'. cbn [forEach]. unfold mthen. by rewrite Hrun.
Qed.

(** X10. In normal mode a path whose range list is an empty array makes the
    batch fail: [plotDataPath[0]] is undefined and [push] throws, before
    anything else of the batch is stored. *)
Theorem addMessages_no_first_range followingView topicToPaths blockPathsMemo accumulated
    msgEvent msgEvents paths path dataItem m r (h : Heap) :
  topicToPaths !! MessageEvent.topic msgEvent = Some (path :: paths) →
  path ∉ blockPathsMemo →
  cachedGetMessagePathDataItems path msgEvent = Some dataItem →
  objects h !! accumulated = Some m → m !! path = Some r →
  range_arrays h !! r = Some [] →
  addMessages false followingView topicToPaths blockPathsMemo accumulated
    (msgEvent :: msgEvents) h = None.
Proof.
  intros Htopic Hnb Hget Hm Hp Hr. rewrite addMessages_eq.
  assert (∃ x rest, batchSamples topicToPaths blockPathsMemo (msgEvent :: msgEvents)
                    = (path, x) :: rest) as (x & rest & ->).
  { unfold batchSamples. cbn [mbind list_bind]. unfold eventSamples at 1.
    rewrite Htopic. cbn. unfold sampleFor at 1.
    rewrite decide_False by done. rewrite Hget. cbn. eauto. }
  rewrite storeAll_cons. cbn [fst snd].
  unfold storeItem, mthen, getObject, getRanges, mreturn, mfail.
  rewrite Hm. cbn. rewrite Hp. cbn. by rewrite Hr.
Qed.




(** X12. Two [restore]s in a row keep the range lists of the paths that
    both lists name; a path the first list leaves out has no range list
    afterwards, also when the second list names it again.  The other own
    properties of the result are those paths of the second list that name a
    member of [Object.prototype] and have no range list: each holds that
    member. *)
Theorem restore_restore (paths1 paths2 : list string) previous prev (h : Heap) :
  objects h !! previous = Some prev → members_ok h →
  ∃ state1 h1 state2 h2,
    restore paths1 (Some previous) h = Some (state1, h1) ∧
    restore paths2 (Some state1) h1 = Some (state2, h2) ∧
    ∀ path,
      entry h2 state2 path =
        (if decide (path ∈ paths1 ∧ path ∈ paths2) then entry h previous path else None) ∧
      readPath h2 state2 path =
        (if decide (path ∈ paths1 ∧ path ∈ paths2) then readPath h previous path else None) ∧
      ((state2, path) ∈ members h2 ↔
       path ∈ paths2 ∧ path ∈ objectPrototype ∧ entry h2 state2 path = None).
Proof.
  intros Hprev Hmem.
  destruct (restore_readPath paths1 previous prev h Hprev)
    as (h1 & Hrun1 & Hentry1 & Hread1 & Hpre1 & _ & _ & [m1 Hm1] & Hms1).
  destruct (restore_readPath paths2 _ m1 h1 Hm1)
    as (h2 & Hrun2 & Hentry2 & Hread2 & _ & _ & _ & _ & Hms2).
  pose proof (lookup_lt_Some _ _ _ Hm1) as Hlt1.
  eexists _, h1, _, h2. split_and!; [done..|].
  intros path. split_and!.
  - rewrite Hentry2, Hentry1.
    destruct (decide (path ∈ paths1)), (decide (path ∈ paths2));
      destruct (decide (path ∈ paths1 ∧ path ∈ paths2)) as [[]|Hn]; try done.
    by destruct Hn.
  - rewrite Hread2, Hread1.
    destruct (decide (path ∈ paths1)), (decide (path ∈ paths2));
      destruct (decide (path ∈ paths1 ∧ path ∈ paths2)) as [[]|Hn]; try done.
    by destruct Hn.
  - rewrite Hms2, Hentry2. split.
    + intros [Hold|(_ & Hin & Hnone & Hproto)].
      * apply Hms1 in Hold as [Hold|(Heq & _)]; [|lia].
        apply Hmem in Hold as [? _]. lia.
      * split_and!; try done. by rewrite decide_True.
    + intros (Hin & Hproto & Hnone). right. rewrite decide_True in Hnone by done.
      by split_and!.
Qed.

(** *** What block accumulation leaves alone *)













Lemma storeAll_single_run followingView lastEventTime accumulated
    (samples : list (string * Item)) (h : Heap) :
  is_Some (objects h !! accumulated) →
  ∃ h', storeAll true followingView lastEventTime accumulated samples h = Some (tt, h') ∧
        item_arrays h `prefix_of` item_arrays h' ∧
        range_arrays h `prefix_of` range_arrays h' ∧
        length (objects h') = length (objects h) ∧
        (∀ o, o ≠ accumulated → objects h' !! o = objects h !! o) ∧
        is_Some (objects h' !! accumulated).
Proof.
  revert h. induction samples as [|[path x] samples IH]; intros h [m Hm].
  { exists h. by split_and!. }
  set (h1 := mkHeap (item_arrays h ++ [[x]]) (range_arrays h ++ [[length (item_arrays h)]])
                    (<[accumulated := <[path := length (range_arrays h)]> m]> (objects h))
                    (block_memo h) (members h)).
  pose proof (lookup_lt_Some _ _ _ Hm) as Hlt.
  destruct (IH h1) as (h' & Hrun & Hi & Hr & Hlen & Hother & Hacc).
  { eexists. cbn. by apply list_lookup_insert_eq. }
  exists h'. split_and!; try done.
  - rewrite storeAll_cons. cbn [fst snd].
    unfold storeItem, mthen, newItems, newRanges, setProperty. cbn. by rewrite Hm.
  - etrans; [|done]. cbn. by apply prefix_app_r.
  - etrans; [|done]. cbn. by apply prefix_app_r.
  - rewrite Hlen. cbn. by rewrite length_insert.
  - intros o Ho. rewrite Hother by done. cbn. by rewrite list_lookup_insert_ne.
Qed.

(** X15. In single-current-message mode a batch returns for every
    accumulated object, also one with an empty range list, and only makes
    new arrays: every array that existed has the contents it had, and so has
    every object other than the accumulated one. *)
Theorem addMessages_single_allocates followingView topicToPaths blockPathsMemo accumulated
    msgEvents (h : Heap) :
  is_Some (objects h !! accumulated) →
  ∃ accumulated' h',
    addMessages true followingView topicToPaths blockPathsMemo accumulated msgEvents h
      = Some (accumulated', h') ∧
    item_arrays h `prefix_of` item_arrays h' ∧
    range_arrays h `prefix_of` range_arrays h' ∧
    ∀ o, o ≠ accumulated → o < length (objects h) → objects h' !! o = objects h !! o.
Proof.
  intros Hacc. rewrite addMessages_eq.
  destruct (batchSamples topicToPaths blockPathsMemo msgEvents) as [|s samples].
  { exists accumulated, h. by split_and!. }
  destruct (storeAll_single_run followingView (MessageEvent.receiveTime <$> last msgEvents)
              accumulated (s :: samples) h Hacc)
    as (h1 & Hrun & Hi & Hr & Hlen & Hother & [m Hm]).
  rewrite Hrun, Hm. eexists _, _. split; [done|]. cbn. split_and!; try done.
  intros o Ho Hlt. rewrite lookup_app_l by lia. by apply Hother.
Qed.

(** *** What [restore] shares with the previous state *)




End Plot.

(** ** Opening a sibling Plot panel: properties *)

Lemma uniq_foldl_elem (result array : list loc) x :
  x ∈ foldl (λ result x, if decide (x ∈ result) then result else result ++ [x])
        result array ↔ x ∈ result ∨ x ∈ array.
Proof.
  revert result. induction array as [|y array IH]; intros result; cbn [foldl].
  { split; [by left|]. by intros [?|?%elem_of_nil]. }
  rewrite IH, elem_of_cons. case_decide as Hy.
  - split; [intros [?|?]; auto|]. intros [?|[->|?]]; auto.
  - rewrite elem_of_app, list_elem_of_singleton.
    split; [intros [[?|?]|?]; auto|]. intros [?|[?|?]]; auto.
Qed.

Lemma uniq_foldl_NoDup (result array : list loc) :
  NoDup result →
  NoDup (foldl (λ result x, if decide (x ∈ result) then result else result ++ [x])
           result array).
Proof.
  revert result. induction array as [|y array IH]; intros result Hnd; cbn [foldl]; [done|].
  case_decide as Hy; apply IH; [done|].
  apply NoDup_app. split_and!; [done| |apply NoDup_singleton].
  by intros z Hz ->%list_elem_of_singleton.
Qed.

Lemma uniq_foldl_sublist (result array : list loc) :
  foldl (λ result x, if decide (x ∈ result) then result else result ++ [x])
    result array `sublist_of` result ++ array.
Proof.
  revert result. induction array as [|y array IH]; intros result; cbn [foldl].
  { by rewrite app_nil_r. }
  case_decide as Hy.
  - etrans; [apply IH|]. apply sublist_app; [done|]. by apply sublist_cons.
  - etrans; [apply IH|]. by rewrite <- app_assoc.
Qed.

Lemma uniq_snoc (array : list loc) n :
  n ∉ array → uniq (array ++ [n]) = uniq array ++ [n].
Proof.
  intros Hn. unfold uniq. rewrite foldl_app. cbn [foldl].
  rewrite decide_False; [done|]. rewrite uniq_foldl_elem.
  by intros [?%elem_of_nil|?].
Qed.

Lemma hasValue_old (pathObjects : list PlotPath) new ref :
  ref < length pathObjects →
  hasValue (pathObjects ++ [new]) ref = hasValue pathObjects ref.
Proof. intros Hlt. unfold hasValue. by rewrite lookup_app_l. Qed.

Lemma hasValue_new (pathObjects : list PlotPath) new :
  hasValue (pathObjects ++ [new]) (length pathObjects) = negb (String.eqb (value new) "").
Proof. unfold hasValue. by rewrite lookup_snoc_new. Qed.

(** X17. With a topic name that is not empty, the creator that
    [openSiblingPlotPanel] passes on always appends a path: the paths of the
    new configuration are the old ones that have a value, each reference
    once, followed by the new path object, also when a path of the same
    value is there already ([uniq] compares the objects, and the object is
    new); the configuration's other fields and the existing path objects are
    kept. *)
Theorem openSiblingPlotPanel_appends {Rest} (topicName : string)
    (pathObjects : list PlotPath) (config : PanelConfig Rest) :
  topicName ≠ "" →
  Forall (λ ref, ref < length pathObjects) (paths config) →
  ∃ pathObjects' config',
    configCreator (openSiblingPlotPanel topicName) pathObjects config
      = (pathObjects', config') ∧
    pathObjects' = pathObjects ++ [mkPlotPath topicName true receiveTime] ∧
    paths config' =
      uniq (List.filter (hasValue pathObjects) (paths config)) ++ [length pathObjects] ∧
    otherFields config' = otherFields config.
Proof.
  intros Hne Hvalid. eexists _, _. split; [done|]. cbn. split_and!; try done.
  rewrite List.filter_app. cbn [List.filter]. rewrite hasValue_new. cbn [value].
  assert (String.eqb topicName "" = false) as ->.
  { by apply String.eqb_neq. }
  cbn [negb]. rewrite uniq_snoc.
  - f_equal. f_equal. apply List.filter_ext_in. intros ref Hin.
    apply hasValue_old. rewrite Forall_forall in Hvalid. apply Hvalid.
    by apply list_elem_of_In.
  - intros Hin. apply list_elem_of_In, List.filter_In in Hin as [Hin _].
    apply list_elem_of_In in Hin. rewrite Forall_forall in Hvalid.
    specialize (Hvalid _ Hin). cbn in Hvalid. lia.
Qed.

(** X18. Whatever the topic name and the configuration, the paths of the new
    configuration hold every reference at most once, in the order of the old
    paths followed by the new path object, and each of them is a path object
    with a value that is not empty; with the empty topic name no path is
    added. *)
Theorem openSiblingPlotPanel_paths {Rest} (topicName : string)
    (pathObjects : list PlotPath) (config : PanelConfig Rest) :
  ∃ pathObjects' config',
    configCreator (openSiblingPlotPanel topicName) pathObjects config
      = (pathObjects', config') ∧
    NoDup (paths config') ∧
    paths config' `sublist_of` paths config ++ [length pathObjects] ∧
    Forall (λ ref, ∃ path, pathObjects' !! ref = Some path ∧ value path ≠ "")
           (paths config') ∧
    (topicName = "" → length pathObjects ∉ paths config').
Proof.
  eexists _, _. split; [done|]. cbn.
  set (pathObjects' := pathObjects ++ [mkPlotPath topicName true receiveTime]).
  assert (Hin : ∀ ref,
            ref ∈ uniq (List.filter (hasValue pathObjects')
                          (paths config ++ [length pathObjects])) →
            hasValue pathObjects' ref = true).
  { intros ref Href. unfold uniq in Href. rewrite uniq_foldl_elem in Href.
    destruct Href as [?%elem_of_nil|Href]; [done|].
    by apply list_elem_of_In, List.filter_In in Href as [_ ?]. }
  split_and!.
  - apply uniq_foldl_NoDup, NoDup_nil_2.
  - etrans; [apply uniq_foldl_sublist|]. cbn [app].
    generalize (paths config ++ [length pathObjects]). intros l.
    induction l as [|x l IH]; cbn [List.filter]; [done|].
    destruct (hasValue pathObjects' x); [by apply sublist_skip|by apply sublist_cons].
  - apply Forall_forall. intros ref Href. apply Hin in Href. unfold hasValue in Href.
    destruct (pathObjects' !! ref) as [path|]; [|done]. exists path. split; [done|].
    intros Hv. rewrite Hv in Href. done.
  - intros -> Href. apply Hin in Href. subst pathObjects'.
    by rewrite hasValue_new in Href.
Qed.

(** ** The properties on the small instance *)


(** A width of 5 selects the following view although the fixed view is
    computable. *)
Lemma defaultView_selection_witness :
  Demo.toNumber "5" = Some 5%float ∧ num_lt 0 5 = true ∧
  defaultView Demo.toNumber Demo.subtractTimes (Some "5") timestamp
    (Some (mkTime 10 0)) (Some (mkTime 70 0)) = Some (following 5).
Proof.
  split; [reflexivity|]. split; [reflexivity|].
  apply (defaultView_selection Demo.toNumber Demo.subtractTimes (Some "5") timestamp
           (Some (mkTime 10 0)) (Some (mkTime 70 0))); reflexivity.
Defined.

(** A path that does not parse is in no entry of the index. *)
Lemma topicToPaths_index_witness :
  Demo.parseRosPath "bad" = None ∧
  topicToPaths Demo.topicName Demo.parseRosPath ["/a.x"; "bad"; "/b"; "/a.y"] !! "/a"
    = Some ["/a.x"; "/a.y"] ∧
  "bad" ∉ ["/a.x"; "/a.y"].
Proof.
  split; [reflexivity|].
  assert (Hidx : topicToPaths Demo.topicName Demo.parseRosPath
                   ["/a.x"; "bad"; "/b"; "/a.y"] !! "/a" = Some ["/a.x"; "/a.y"]).
  { vm_compute. reflexivity. }
  split; [exact Hidx|].
  destruct (topicToPaths_index Demo.topicName Demo.parseRosPath
              ["/a.x"; "bad"; "/b"; "/a.y"]) as (_ & Hbad & _).
  exact (Hbad "bad" eq_refl "/a" _ Hidx).
Defined.




(** In index mode the block data is empty, and a batch of two events leaves
    one range with the later sample. *)
Lemma single_current_message_witness :
  (index = index ∨ index = currentCustom) ∧
  well_formed Demo.fresh 0 ∧
  ∃ accumulated' h',
    addMessages Demo.cachedGetMessagePathDataItems Demo.getTimestampForMessage
      (showSingleCurrentMessage index) None Demo.index [] 0
      [Demo.event "/a" 1 7; Demo.event "/a" 2 8] Demo.fresh = Some (accumulated', h') ∧
    readPath h' accumulated' "/a" = Some [[Demo.sample 2 8]].
Proof.
  assert (Hwf : well_formed Demo.fresh 0) by (apply well_formed_empty; reflexivity).
  split; [by left|]. split; [exact Hwf|].
  destruct (single_current_message Demo.cachedGetMessagePathDataItems
              Demo.getTimestampForMessage Demo.decodeMessagePathsForMessagesByTopic
              index [] None Demo.index [] 0
              [Demo.event "/a" 1 7; Demo.event "/a" 2 8] Demo.fresh (or_introl eq_refl))
    as [_ Hbatch].
  destruct (Hbatch Hwf) as (accumulated' & h' & Hrun & Hpaths).
  exists accumulated', h'. split; [exact Hrun|].
  destruct (Hpaths "/a") as (x & Hlast & Hread).
  - intros Hun.
    destruct (Hun (Demo.event "/a" 1 7) ["/a"]) as [Hin|Hnone].
    + apply list_elem_of_here.
    + reflexivity.
    + apply list_elem_of_here.
    + by apply elem_of_nil in Hin.
    + discriminate Hnone.
  - vm_compute in Hlast. injection Hlast as <-. exact Hread.
Defined.




(** In single-current-message mode, a second event from which the path
    selects nothing leaves the sample of the first. *)
Lemma single_mode_failed_extraction_witness :
  well_formed Demo.fresh 0 ∧
  ∃ accumulated' h',
    addMessages Demo.cachedGetMessagePathDataItems Demo.getTimestampForMessage
      true None Demo.index [] 0 [Demo.event "/a" 1 7; Demo.event "/a" 2 0] Demo.fresh
      = Some (accumulated', h') ∧
    readPath h' accumulated' "/a" = Some [[Demo.sample 1 7]].
Proof.
  assert (Hwf : well_formed Demo.fresh 0) by (apply well_formed_empty; reflexivity).
  split; [exact Hwf|].
  destruct (single_mode_failed_extraction Demo.cachedGetMessagePathDataItems
              Demo.getTimestampForMessage None Demo.index [] 0
              [Demo.event "/a" 1 7; Demo.event "/a" 2 0] Demo.fresh Hwf)
    as (_ & accumulated' & h' & Hrun & _ & Hkept).
  exists accumulated', h'. split; [exact Hrun|].
  apply (Hkept "/a" [] (Demo.event "/a" 1 7) [Demo.event "/a" 2 0] ["/a"]).
  - reflexivity.
  - reflexivity.
  - apply list_elem_of_here.
  - reflexivity.
  - intros msgEvent paths Hin _ _.
    apply list_elem_of_singleton in Hin. subst msgEvent. right. reflexivity.
Defined.

(** *** Further properties on the small instance *)







(** A sample for a path whose range list has no range makes the batch fail. *)
Lemma addMessages_no_first_range_witness :
  addMessages Demo.cachedGetMessagePathDataItems Demo.getTimestampForMessage
    false None Demo.index [] 0 [Demo.event "/a" 11 7] Demo.hollow = None.
Proof.
  apply (addMessages_no_first_range Demo.cachedGetMessagePathDataItems
           Demo.getTimestampForMessage None Demo.index [] 0 (Demo.event "/a" 11 7) []
           [] "/a" 7 {[ "/a" := 0 ]} 0 Demo.hollow).
  - reflexivity.
  - apply not_elem_of_nil.
  - reflexivity.
  - reflexivity.
  - reflexivity.
  - reflexivity.
Defined.


(** [/a] is dropped by a first [restore] and stays dropped when the second
    names it again; the second also names [toString], which the result then
    holds as an own property. *)
Lemma restore_restore_witness :
  objects Demo.two !! 0 = Some (<[ "/a" := 0 ]> {[ "/b" := 1 ]}) ∧
  members_ok Demo.two ∧
  ∃ state1 h1 state2 h2,
    restore ["/b"] (Some 0) Demo.two = Some (state1, h1) ∧
    restore ["/a"; "/b"; "toString"] (Some state1) h1 = Some (state2, h2) ∧
    entry h2 state2 "/a" = None ∧ entry h2 state2 "/b" = Some 1 ∧
    (state2, "toString") ∈ members h2.
Proof.
  assert (Hmem : members_ok Demo.two) by (apply members_ok_empty; reflexivity).
  split; [reflexivity|]. split; [exact Hmem|].
  destruct (restore_restore ["/b"] ["/a"; "/b"; "toString"] 0
              (<[ "/a" := 0 ]> {[ "/b" := 1 ]}) Demo.two eq_refl Hmem)
    as (state1 & h1 & state2 & h2 & Hrun1 & Hrun2 & Hpaths).
  exists state1, h1, state2, h2. split; [exact Hrun1|]. split; [exact Hrun2|].
  split; [|split].
  - destruct (Hpaths "/a") as [-> _]. reflexivity.
  - destruct (Hpaths "/b") as [-> _]. reflexivity.
  - destruct (Hpaths "toString") as (Hentry & _ & Hmember). apply Hmember.
    split; [|split].
    + apply list_elem_of_further, list_elem_of_further, list_elem_of_here.
    + apply (bool_decide_unpack _). vm_compute. exact I.
    + rewrite Hentry. reflexivity.
Defined.

(** A batch, a [restore] that names [toString], and a batch in the other
    mode: the calls return, and the state holds one range under [/a]. *)
Lemma reducerCalls_return_witness :
  members_ok Demo.emptyStore ∧
  Forall plainCall
    [callAddMessages false None Demo.index [] [Demo.event "/a" 1 7];
     callRestore ["toString"; "/a"];
     callAddMessages true None Demo.index [] [Demo.event "/a" 2 8]] ∧
  ∃ state h',
    reducerCalls Demo.cachedGetMessagePathDataItems Demo.getTimestampForMessage ["/a"]
      [callAddMessages false None Demo.index [] [Demo.event "/a" 1 7];
       callRestore ["toString"; "/a"];
       callAddMessages true None Demo.index [] [Demo.event "/a" 2 8]] Demo.emptyStore
      = Some (state, h') ∧
    one_range h' state ∧ members_ok h'.
Proof.
  assert (Hmem : members_ok Demo.emptyStore) by (apply members_ok_empty; reflexivity).
  assert (Hindex : plainIndex Demo.index).
  { intros topic paths path Hl Hin.
    unfold Demo.index in Hl. apply lookup_singleton_Some in Hl as [_ <-].
    apply list_elem_of_singleton in Hin as ->.
    apply (bool_decide_unpack _). vm_compute. exact I. }
  assert (Hcalls : Forall plainCall
            [callAddMessages false None Demo.index [] [Demo.event "/a" 1 7];
             callRestore ["toString"; "/a"];
             callAddMessages true None Demo.index [] [Demo.event "/a" 2 8]]).
  { repeat apply Forall_cons_2; [exact Hindex|exact I|exact Hindex|apply Forall_nil_2]. }
  split; [exact Hmem|]. split; [exact Hcalls|].
  destruct (reducerCalls_return Demo.cachedGetMessagePathDataItems
              Demo.getTimestampForMessage ["/a"] _ Demo.emptyStore Hmem Hcalls)
    as (state & h' & Hrun & _ & Hone & Hmem').
  exists state, h'. split; [exact Hrun|]. split; [exact Hone|exact Hmem'].
Defined.



(** In single-current-message mode a batch keeps the array of the store. *)
Lemma addMessages_single_allocates_witness :
  is_Some (objects Demo.hollow !! 0) ∧
  ∃ accumulated' h',
    addMessages Demo.cachedGetMessagePathDataItems Demo.getTimestampForMessage
      true None Demo.index [] 0 [Demo.event "/a" 11 7] Demo.hollow
      = Some (accumulated', h') ∧
    range_arrays Demo.hollow `prefix_of` range_arrays h'.
Proof.
  assert (Hacc : is_Some (objects Demo.hollow !! 0)) by (eexists; reflexivity).
  split; [exact Hacc|].
  destruct (addMessages_single_allocates Demo.cachedGetMessagePathDataItems
              Demo.getTimestampForMessage None Demo.index [] 0 [Demo.event "/a" 11 7]
              Demo.hollow Hacc) as (accumulated' & h' & Hrun & _ & Hr & _).
  exists accumulated', h'. split; [exact Hrun|exact Hr].
Defined.


(** The topic [/a] is added although a path with the value [/a] is there:
    of the paths 0, 1, 0 the first is kept once, the second has no value,
    and the new path object 2 follows. *)
Lemma openSiblingPlotPanel_appends_witness :
  ∃ pathObjects' config',
    configCreator (openSiblingPlotPanel "/a") DemoConfig.pathObjects DemoConfig.config
      = (pathObjects', config') ∧
    paths config' = [0; 2].
Proof.
  destruct (openSiblingPlotPanel_appends "/a" DemoConfig.pathObjects DemoConfig.config)
    as (pathObjects' & config' & Hrun & _ & Hpaths & _).
  - discriminate.
  - repeat constructor.
  - exists pathObjects', config'. split; [exact Hrun|]. rewrite Hpaths. reflexivity.
Defined.

